(** * PsiMedia: the RwControl cross-thread control channel

    A shallow embedding of [src/gstprovider/rwcontrol.cpp]: the two
    message queues between [RwControlLocal] (caller thread) and
    [RwControlRemote] (GStreamer event-loop thread), the frame retention
    bound, the coalescing of frames and audio intensities, and the
    blocking gate around the worker's asynchronous operations.

    Conventions of the model.
    - C++ [int] values are [Z]; list positions are [Z] as well, so the
      sentinel [firstPos = -1] and the [--n] of the scanning loops are
      written as in the source.
    - A [QList<RwControlMessage*>] is a [list] of message values.  The
      source frees messages by hand; every [delete] is recorded in a log of
      freed messages so that release can be stated.
    - [RtpWorker] is an external collaborator.  It is a record of the fields
      the file reads and writes, plus the chronological trace of what
      crossed its boundary: the methods [RwControlRemote] invoked on it and
      the completion callbacks it fired.
    - Every critical section of the source is executed atomically; a whole
      call of [processMessages] is taken as one step of its thread. *)

From Stdlib Require Import List ZArith Lia Bool Permutation.
From Stdlib Require Strings.String.
From Equations Require Import Equations.
Import ListNotations.

Set Implicit Arguments.
Local Open Scope Z_scope.

(** ** Types declared outside the file *)

(** The payload types of [psimediaprovider.h] and Qt's image type are opaque
    to this file: it only copies them around.  [rwcontrol.h] is not part of
    the sources either; the error code its [RwControlStatus] constructor
    installs is taken as a parameter. *)
Class MediaTypes : Type := {
  QImage : Type;
  PAudioParams : Type;
  PVideoParams : Type;
  PPayloadInfo : Type;
  initialErrorCode : Z
}.

(** A concrete choice of payloads, used to run the model on examples. *)
Definition sampleTypes : MediaTypes :=
  {| QImage := nat; PAudioParams := nat; PVideoParams := nat; PPayloadInfo := nat;
     initialErrorCode := -1 |}.

Definition QString := String.string.
Definition QByteArray := list Byte.byte.

(** [#define QUEUE_FRAME_MAX 10] *)
Definition QUEUE_FRAME_MAX : Z := 10.

(** ** QList operations used by the file *)

Definition count {A} (l : list A) : Z := Z.of_nat (length l).

(** [QList::at(n)]; defined only for [0 <= n < count]. *)
Definition at_ {A} (l : list A) (n : Z) : option A :=
  if n <? 0 then None else nth_error l (Z.to_nat n).

(** [QList::removeAt(n)]; Qt leaves the list alone when [n] is out of range. *)
Definition removeAt {A} (l : list A) (n : Z) : list A :=
  if (0 <=? n) && (n <? count l)
  then firstn (Z.to_nat n) l ++ skipn (S (Z.to_nat n)) l
  else l.

(** [QList::isEmpty()] *)
Definition isEmpty {A} (l : list A) : bool :=
  match l with
  | [] => true
  | _ :: _ => false
  end.

Definition inspect {A} (a : A) : {b : A | a = b} := exist _ a eq_refl.

(** ** Message payloads *)

Record RwControlConfigDevices : Type := {
  audioOutId : QString;
  audioInId : QString;
  videoInId : QString;
  fileNameIn : QString;
  fileDataIn : QByteArray;
  loopFile : bool;
  audioOutVolume : Z;
  audioInVolume : Z
}.

Module RwControlConfigCodecs.
Section Def.
Context {M : MediaTypes}.
Record t : Type := {
  useLocalAudioParams : bool;
  useLocalVideoParams : bool;
  useLocalAudioPayloadInfo : bool;
  useLocalVideoPayloadInfo : bool;
  useRemoteAudioPayloadInfo : bool;
  useRemoteVideoPayloadInfo : bool;
  localAudioParams : list PAudioParams;
  localVideoParams : list PVideoParams;
  localAudioPayloadInfo : list PPayloadInfo;
  localVideoPayloadInfo : list PPayloadInfo;
  remoteAudioPayloadInfo : list PPayloadInfo;
  remoteVideoPayloadInfo : list PPayloadInfo
}.
End Def.
Arguments t {M}.
End RwControlConfigCodecs.

Record RwControlTransmit : Type := {
  useAudio : bool;
  useVideo : bool;
  audioIndex : Z;
  videoIndex : Z
  }.

Record RwControlRecord : Type := { enabled : bool }.

Module RwControlStatus.
Section Def.
Context {M : MediaTypes}.
Record t : Type := {
  localAudioParams : list PAudioParams;
  localVideoParams : list PVideoParams;
  localAudioPayloadInfo : list PPayloadInfo;
  localVideoPayloadInfo : list PPayloadInfo;
  canTransmitAudio : bool;
  canTransmitVideo : bool;
  stopped : bool;
  finished : bool;
  error : bool;
  errorCode : Z
}.

Definition set_stopped (b : bool) (s : t) : t :=
  {| localAudioParams := localAudioParams s;
     localVideoParams := localVideoParams s;
     localAudioPayloadInfo := localAudioPayloadInfo s;
     localVideoPayloadInfo := localVideoPayloadInfo s;
     canTransmitAudio := canTransmitAudio s;
     canTransmitVideo := canTransmitVideo s;
     stopped := b; finished := finished s;
     error := error s; errorCode := errorCode s |}.

Definition set_finished (b : bool) (s : t) : t :=
  {| localAudioParams := localAudioParams s;
     localVideoParams := localVideoParams s;
     localAudioPayloadInfo := localAudioPayloadInfo s;
     localVideoPayloadInfo := localVideoPayloadInfo s;
     canTransmitAudio := canTransmitAudio s;
     canTransmitVideo := canTransmitVideo s;
     stopped := stopped s; finished := b;
     error := error s; errorCode := errorCode s |}.

Definition set_error (b : bool) (code : Z) (s : t) : t :=
  {| localAudioParams := localAudioParams s;
     localVideoParams := localVideoParams s;
     localAudioPayloadInfo := localAudioPayloadInfo s;
     localVideoPayloadInfo := localVideoPayloadInfo s;
     canTransmitAudio := canTransmitAudio s;
     canTransmitVideo := canTransmitVideo s;
     stopped := stopped s; finished := finished s;
     error := b; errorCode := code |}.
End Def.
Arguments t {M}.
End RwControlStatus.

Inductive FrameType : Type := Preview | Output.

Definition FrameType_eqb (a b : FrameType) : bool :=
  match a, b with
  | Preview, Preview | Output, Output => true
  | _, _ => false
  end.

Section Messages.
Context {M : MediaTypes}.

Record RwControlFrame : Type := { type : FrameType; image : QImage }.

Record RwControlAudioIntensity : Type := { value : Z }.

(** [RwControlMessage] and its subclasses, one constructor per value of
    [RwControlMessage::Type]. *)
Inductive RwControlMessage : Type :=
| RwControlStartMessage (devices : RwControlConfigDevices)
                        (codecs : RwControlConfigCodecs.t)
| RwControlStopMessage
| RwControlUpdateDevicesMessage (devices : RwControlConfigDevices)
| RwControlUpdateCodecsMessage (codecs : RwControlConfigCodecs.t)
| RwControlTransmitMessage (transmit : RwControlTransmit)
| RwControlRecordMessage (record : RwControlRecord)
| RwControlStatusMessage (status : RwControlStatus.t)
| RwControlAudioIntensityMessage (intensity : RwControlAudioIntensity)
| RwControlFrameMessage (frame : RwControlFrame).

(** [msg->type == Frame && ((RwControlFrameMessage * )msg)->frame.type == ty] *)
Definition isFrameOfType (ty : FrameType) (msg : RwControlMessage) : bool :=
  match msg with
  | RwControlFrameMessage f => FrameType_eqb (type f) ty
  | _ => false
  end.

(** [msg->type == RwControlMessage::AudioIntensity] *)
Definition isAudioIntensity (msg : RwControlMessage) : bool :=
  match msg with
  | RwControlAudioIntensityMessage _ => true
  | _ => false
  end.
End Messages.

(** ** The worker, seen from this file *)

Module RtpWorker.
(** What crosses the worker's boundary: the methods this file calls on it
      and the completion callbacks it fires, in the order they happen. *)
Inductive action : Type :=
  | setOutputVolume (level : Z)
  | setInputVolume (level : Z)
  | start
  | stop
  | update
  | transmitAudio (index : Z)
  | pauseAudio
  | transmitVideo (index : Z)
  | pauseVideo
  | recordStart
  | recordStop
  | cb_started
  | cb_updated
  | cb_stopped
  | cb_finished
  | cb_error.

Section Def.
Context {M : MediaTypes}.

Record t : Type := {
  aout : QString;
  ain : QString;
  vin : QString;
  infile : QString;
  indata : QByteArray;
  loopFile : bool;
  localAudioParams : list PAudioParams;
  localVideoParams : list PVideoParams;
  localAudioPayloadInfo : list PPayloadInfo;
  localVideoPayloadInfo : list PPayloadInfo;
  remoteAudioPayloadInfo : list PPayloadInfo;
  remoteVideoPayloadInfo : list PPayloadInfo;
  canTransmitAudio : bool;
  canTransmitVideo : bool;
  error : Z;
  trace : list action
}.

(** Appends one boundary crossing to the worker's trace. *)
Definition record (a : action) (w : t) : t :=
  {| aout := aout w; ain := ain w; vin := vin w;
     infile := infile w; indata := indata w; loopFile := loopFile w;
     localAudioParams := localAudioParams w;
     localVideoParams := localVideoParams w;
     localAudioPayloadInfo := localAudioPayloadInfo w;
     localVideoPayloadInfo := localVideoPayloadInfo w;
     remoteAudioPayloadInfo := remoteAudioPayloadInfo w;
     remoteVideoPayloadInfo := remoteVideoPayloadInfo w;
     canTransmitAudio := canTransmitAudio w;
     canTransmitVideo := canTransmitVideo w;
     error := error w;
     trace := trace w ++ [a] |}.
End Def.
Arguments t {M}.
End RtpWorker.

(** ** The file's static helpers *)

Section Helpers.
Context {M : MediaTypes}.

(** The body of the [for] loop of [queuedFrameInfo], from position [n] on;
    [rest] is the part of the list at positions [n], [n+1], ... *)
Fixpoint queuedFrameInfo_loop (rest : list RwControlMessage)
    (ty : FrameType) (n : Z) (cnt : Z) (first : bool) (firstPos : Z)
    : Z * Z :=
  match rest with
  | [] => (cnt, firstPos)
  | msg :: rest' =>
      if isFrameOfType ty msg
      then queuedFrameInfo_loop rest' ty (n + 1) (cnt + 1) false
             (if first then n else firstPos)
      else queuedFrameInfo_loop rest' ty (n + 1) cnt first firstPos
  end.

(** [queuedFrameInfo(list, type, &firstPos)]: the returned count and the
    final content of [*firstPos], which enters holding [firstPos].  ([lst]
    stands for the source's [list] throughout.) *)
Definition queuedFrameInfo (lst : list RwControlMessage) (ty : FrameType)
    (firstPos : Z) : Z * Z :=
  queuedFrameInfo_loop lst ty 0 0 true firstPos.

(** What [if(fmsg) delete fmsg] frees. *)
Definition deleteIfSet (cur : option RwControlMessage)
    : list RwControlMessage :=
  match cur with
  | Some old => [old]
  | None => []
  end.

(** The scanning loop shared, word for word, by
    [getLatestFrameAndRemoveOthers] and
    [getLatestAudioIntensityAndRemoveOthers]; [sel] is the test of the
    loop's [if].  State: the list, the position [n], the message kept so
    far and the log of freed messages. *)
Equations? latest_loop (sel : RwControlMessage -> bool)
    (lst : list RwControlMessage) (n : Z)
    (cur : option RwControlMessage) (freed : list RwControlMessage)
    : option RwControlMessage * list RwControlMessage * list RwControlMessage
    by wf (Z.to_nat (count lst - n)) lt :=
  latest_loop sel lst n cur freed with Z_lt_dec n (count lst) := {
    | right _ := (cur, lst, freed)
    | left Hlt with inspect (at_ lst n) := {
        | exist _ None _ := (cur, lst, freed)
        | exist _ (Some msg) Hat with sel msg := {
            | true :=
                latest_loop sel (removeAt lst n) (n - 1 + 1) (Some msg)
                  (freed ++ deleteIfSet cur)
            | false := latest_loop sel lst (n + 1) cur freed } } }.
Proof.
  - unfold at_ in Hat. destruct (Z.ltb_spec n 0); [discriminate|].
    unfold removeAt.
    destruct (Z.leb_spec 0 n); [|lia].
    destruct (Z.ltb_spec n (count lst)); [|lia]. cbn [andb].
    unfold count in *. rewrite length_app, length_firstn, length_skipn. lia.
  - lia.
Qed.

Definition getLatestFrameAndRemoveOthers (lst : list RwControlMessage)
    (ty : FrameType)
    : option RwControlMessage * list RwControlMessage * list RwControlMessage :=
  latest_loop (isFrameOfType ty) lst 0 None [].

Definition getLatestAudioIntensityAndRemoveOthers (lst : list RwControlMessage)
    : option RwControlMessage * list RwControlMessage * list RwControlMessage :=
  latest_loop isAudioIntensity lst 0 None [].

(** Modelled from the spec: the constructor of [RwControlStatus], declared
    in [rwcontrol.h], which is not among the sources.  The spec has at most
    one of stopped/finished/error set per snapshot, so a fresh status has
    none of them; the capability flags and the lists are overwritten by
    [statusFromWorker] before anyone reads them. *)
Definition newStatus : RwControlStatus.t :=
  {| RwControlStatus.localAudioParams := [];
     RwControlStatus.localVideoParams := [];
     RwControlStatus.localAudioPayloadInfo := [];
     RwControlStatus.localVideoPayloadInfo := [];
     RwControlStatus.canTransmitAudio := false;
     RwControlStatus.canTransmitVideo := false;
     RwControlStatus.stopped := false;
     RwControlStatus.finished := false;
     RwControlStatus.error := false;
     RwControlStatus.errorCode := initialErrorCode |}.

Definition statusFromWorker (worker : RtpWorker.t) : RwControlStatus.t :=
  {| RwControlStatus.localAudioParams := RtpWorker.localAudioParams worker;
     RwControlStatus.localVideoParams := RtpWorker.localVideoParams worker;
     RwControlStatus.localAudioPayloadInfo := RtpWorker.localAudioPayloadInfo worker;
     RwControlStatus.localVideoPayloadInfo := RtpWorker.localVideoPayloadInfo worker;
     RwControlStatus.canTransmitAudio := RtpWorker.canTransmitAudio worker;
     RwControlStatus.canTransmitVideo := RtpWorker.canTransmitVideo worker;
     RwControlStatus.stopped := RwControlStatus.stopped newStatus;
     RwControlStatus.finished := RwControlStatus.finished newStatus;
     RwControlStatus.error := RwControlStatus.error newStatus;
     RwControlStatus.errorCode := RwControlStatus.errorCode newStatus |}.

Definition applyDevicesToWorker (worker : RtpWorker.t)
    (devices : RwControlConfigDevices) : RtpWorker.t :=
  {| RtpWorker.aout := audioOutId devices;
     RtpWorker.ain := audioInId devices;
     RtpWorker.vin := videoInId devices;
     RtpWorker.infile := fileNameIn devices;
     RtpWorker.indata := fileDataIn devices;
     RtpWorker.loopFile := loopFile devices;
     RtpWorker.localAudioParams := RtpWorker.localAudioParams worker;
     RtpWorker.localVideoParams := RtpWorker.localVideoParams worker;
     RtpWorker.localAudioPayloadInfo := RtpWorker.localAudioPayloadInfo worker;
     RtpWorker.localVideoPayloadInfo := RtpWorker.localVideoPayloadInfo worker;
     RtpWorker.remoteAudioPayloadInfo := RtpWorker.remoteAudioPayloadInfo worker;
     RtpWorker.remoteVideoPayloadInfo := RtpWorker.remoteVideoPayloadInfo worker;
     RtpWorker.canTransmitAudio := RtpWorker.canTransmitAudio worker;
     RtpWorker.canTransmitVideo := RtpWorker.canTransmitVideo worker;
     RtpWorker.error := RtpWorker.error worker;
     RtpWorker.trace :=
       RtpWorker.trace worker
         ++ [RtpWorker.setOutputVolume (audioOutVolume devices);
             RtpWorker.setInputVolume (audioInVolume devices)] |}.

Definition applyCodecsToWorker (worker : RtpWorker.t)
    (codecs : RwControlConfigCodecs.t) : RtpWorker.t :=
  {| RtpWorker.aout := RtpWorker.aout worker;
     RtpWorker.ain := RtpWorker.ain worker;
     RtpWorker.vin := RtpWorker.vin worker;
     RtpWorker.infile := RtpWorker.infile worker;
     RtpWorker.indata := RtpWorker.indata worker;
     RtpWorker.loopFile := RtpWorker.loopFile worker;
     RtpWorker.localAudioParams :=
       if RwControlConfigCodecs.useLocalAudioParams codecs
       then RwControlConfigCodecs.localAudioParams codecs
       else RtpWorker.localAudioParams worker;
     RtpWorker.localVideoParams :=
       if RwControlConfigCodecs.useLocalVideoParams codecs
       then RwControlConfigCodecs.localVideoParams codecs
       else RtpWorker.localVideoParams worker;
     RtpWorker.localAudioPayloadInfo :=
       if RwControlConfigCodecs.useLocalAudioPayloadInfo codecs
       then RwControlConfigCodecs.localAudioPayloadInfo codecs
       else RtpWorker.localAudioPayloadInfo worker;
     RtpWorker.localVideoPayloadInfo :=
       if RwControlConfigCodecs.useLocalVideoPayloadInfo codecs
       then RwControlConfigCodecs.localVideoPayloadInfo codecs
       else RtpWorker.localVideoPayloadInfo worker;
     RtpWorker.remoteAudioPayloadInfo :=
       if RwControlConfigCodecs.useRemoteAudioPayloadInfo codecs
       then RwControlConfigCodecs.remoteAudioPayloadInfo codecs
       else RtpWorker.remoteAudioPayloadInfo worker;
     RtpWorker.remoteVideoPayloadInfo :=
       if RwControlConfigCodecs.useRemoteVideoPayloadInfo codecs
       then RwControlConfigCodecs.remoteVideoPayloadInfo codecs
       else RtpWorker.remoteVideoPayloadInfo worker;
     RtpWorker.canTransmitAudio := RtpWorker.canTransmitAudio worker;
     RtpWorker.canTransmitVideo := RtpWorker.canTransmitVideo worker;
     RtpWorker.error := RtpWorker.error worker;
     RtpWorker.trace := RtpWorker.trace worker |}.
End Helpers.

(** ** RwControlLocal: the caller's side *)

Module RwControlLocal.
Section Def.
Context {M : MediaTypes}.

(** The members the file uses: the inbox [in] and [wake_pending]. *)
Record t : Type := {
  in_ : list RwControlMessage;
  wake_pending : bool
}.

(** State left by the constructor. *)
Definition new : t := {| in_ := []; wake_pending := false |}.

(** The Qt signals of the class. *)
Inductive signal : Type :=
| previewFrame (i : QImage)
| outputFrame (i : QImage)
| audioIntensityChanged (i : Z)
| statusReady (s : RwControlStatus.t).

(** The slots connected to the signals are application code.  All the
    drain can see of them is whether the [QPointer] [self] is still set
    when an [emit] returns; an observer answers that from the signals
    delivered so far in this drain, the last one being the one just
    emitted ([true]: the object is still there). *)
Definition observer : Type := list signal -> bool.

(** [postMessage(msg)].  The queued invocation of [processMessages] is
    left to the event loop; [wake_pending] remembers that one is due. *)
Definition postMessage (l : t) (msg : RwControlMessage) : t :=
  let in1 :=
    match msg with
    | RwControlFrameMessage fmsg =>
        let '(cnt, firstPos) := queuedFrameInfo (in_ l) (type fmsg) (-1) in
        if cnt >=? QUEUE_FRAME_MAX then removeAt (in_ l) firstPos else in_ l
    | _ => in_ l
    end in
  {| in_ := in1 ++ [msg];
     wake_pending := if negb (wake_pending l) then true else wake_pending l |}.

(** *** The drain

    [processMessages] threads two logs, the signals emitted and the
    messages freed, and leaves early when an observer destroyed the
    object.  [None] as a result is that early [return]. *)
Record drain : Type := {
  emitted : list signal;
  freed : list RwControlMessage
}.

Definition Drain (A : Type) : Type := drain -> option A * drain.

Definition ret {A} (a : A) : Drain A := fun d => (Some a, d).

Definition bind {A B} (c : Drain A) (k : A -> Drain B) : Drain B :=
  fun d =>
    match c d with
    | (Some a, d') => k a d'
    | (None, d') => (None, d')
    end.

(** [delete msg], or [qDeleteAll] of several. *)
Definition delete (msgs : list RwControlMessage) : Drain unit :=
  fun d => (Some tt, {| emitted := emitted d; freed := freed d ++ msgs |}).

(** [emit sg; if(!self) { qDeleteAll(list); return; }] *)
Definition emit (obs : observer) (sg : signal) (lst : list RwControlMessage)
    : Drain unit :=
  fun d =>
    let em := emitted d ++ [sg] in
    if obs em
    then (Some tt, {| emitted := em; freed := freed d |})
    else (None, {| emitted := em; freed := freed d ++ lst |}).

(** Runs one of the static scans and books what it freed. *)
Definition scan
    (r : option RwControlMessage * list RwControlMessage * list RwControlMessage)
    : Drain (option RwControlMessage * list RwControlMessage) :=
  let '(kept, lst, gone) := r in
  bind (delete gone) (fun _ => ret (kept, lst)).
End Def.
Arguments t {M}.
Arguments signal {M}.
Arguments observer {M}.
Arguments drain {M}.

Declare Scope drain_scope.
Delimit Scope drain_scope with drain.
Notation "x <- c ;; k" := (bind c (fun x => k))
  (at level 61, c at next level, right associativity) : drain_scope.
Notation "' p <- c ;; k" := (bind c (fun x => let p := x in k))
  (at level 61, p pattern, c at next level, right associativity) : drain_scope.
Notation "c ;; k" := (bind c (fun _ => k))
  (at level 61, right associativity) : drain_scope.

Section Drain.
Context {M : MediaTypes}.
Local Open Scope drain_scope.

(** The final [while(!list.isEmpty())] loop. *)
Fixpoint remaining (obs : observer) (lst : list RwControlMessage)
    : Drain unit :=
  match lst with
  | [] => ret tt
  | msg :: rest =>
      match msg with
      | RwControlStatusMessage status =>
          delete [msg] ;;
          emit obs (statusReady status) rest ;;
          remaining obs rest
      | _ =>
          delete [msg] ;;
          remaining obs rest
      end
  end.

(** The three blocks in front of the loop.  The scans only ever return a
    message of the kind they were asked for, so the other branch of each
    [match] is never taken; the source casts without looking. *)
Definition latestPreview (obs : observer) (lst : list RwControlMessage)
    : Drain (list RwControlMessage) :=
  '(fmsg, lst) <- scan (getLatestFrameAndRemoveOthers lst Preview) ;;
  match fmsg with
  | Some (RwControlFrameMessage f as msg) =>
      delete [msg] ;; emit obs (previewFrame (image f)) lst ;; ret lst
  | _ => ret lst
  end.

Definition latestOutput (obs : observer) (lst : list RwControlMessage)
    : Drain (list RwControlMessage) :=
  '(fmsg, lst) <- scan (getLatestFrameAndRemoveOthers lst Output) ;;
  match fmsg with
  | Some (RwControlFrameMessage f as msg) =>
      delete [msg] ;; emit obs (outputFrame (image f)) lst ;; ret lst
  | _ => ret lst
  end.

Definition latestAudioIntensity (obs : observer) (lst : list RwControlMessage)
    : Drain (list RwControlMessage) :=
  '(amsg, lst) <- scan (getLatestAudioIntensityAndRemoveOthers lst) ;;
  match amsg with
  | Some (RwControlAudioIntensityMessage a as msg) =>
      delete [msg] ;; emit obs (audioIntensityChanged (value a)) lst ;; ret lst
  | _ => ret lst
  end.

(** What is done with the batch once it has been taken out of [in]. *)
Definition dispatch (obs : observer) (lst : list RwControlMessage)
    : Drain unit :=
  lst <- latestPreview obs lst ;;
  lst <- latestOutput obs lst ;;
  lst <- latestAudioIntensity obs lst ;;
  remaining obs lst.

(** [processMessages()]: the object afterwards ([None] when an observer
    destroyed it) and the two logs of the drain. *)
Definition processMessages (obs : observer) (l : t) : option t * drain :=
  let lst := in_ l in
  let l' := {| in_ := []; wake_pending := false |} in
  match dispatch obs lst {| emitted := []; freed := [] |} with
  | (Some _, d) => (Some l', d)
  | (None, d) => (None, d)
  end.
End Drain.
End RwControlLocal.

(** ** RwControlRemote: the worker's side *)

Module RwControlRemote.
Section Def.
Context {M : MediaTypes}.

(** [timer] is a [GSource*]; the model keeps whether it is set, that is,
    whether a call of [processMessages] is scheduled on the event loop. *)
Record t : Type := {
  in_ : list RwControlMessage;
  blocking : bool;
  timer : bool;
  pending_status : bool;
  worker : RtpWorker.t
}.

(** State left by the constructor around a freshly made worker. *)
Definition new (w : RtpWorker.t) : t :=
  {| in_ := []; blocking := false; timer := false;
     pending_status := false; worker := w |}.

Definition set_in (q : list RwControlMessage) (r : t) : t :=
  {| in_ := q; blocking := blocking r; timer := timer r;
     pending_status := pending_status r; worker := worker r |}.

Definition set_blocking (b : bool) (r : t) : t :=
  {| in_ := in_ r; blocking := b; timer := timer r;
     pending_status := pending_status r; worker := worker r |}.

Definition set_timer (b : bool) (r : t) : t :=
  {| in_ := in_ r; blocking := blocking r; timer := b;
     pending_status := pending_status r; worker := worker r |}.

Definition set_pending_status (b : bool) (r : t) : t :=
  {| in_ := in_ r; blocking := blocking r; timer := timer r;
     pending_status := b; worker := worker r |}.

Definition set_worker (w : RtpWorker.t) (r : t) : t :=
  {| in_ := in_ r; blocking := blocking r; timer := timer r;
     pending_status := pending_status r; worker := w |}.

(** [worker->f(...)] for a method [f] of the worker. *)
Definition call (a : RtpWorker.action) (r : t) : t :=
  set_worker (RtpWorker.record a (worker r)) r.

(** [processMessage(msg)]: the returned flag and the object afterwards. *)
Definition processMessage (msg : RwControlMessage) (r : t) : bool * t :=
  match msg with
  | RwControlStartMessage devices codecs =>
      let r := set_worker (applyDevicesToWorker (worker r) devices) r in
      let r := set_worker (applyCodecsToWorker (worker r) codecs) r in
      let r := set_pending_status true r in
      let r := call RtpWorker.start r in
      (false, r)
  | RwControlStopMessage =>
      let r := set_pending_status true r in
      let r := call RtpWorker.stop r in
      (false, r)
  | RwControlUpdateDevicesMessage devices =>
      let r := set_worker (applyDevicesToWorker (worker r) devices) r in
      let r := call RtpWorker.update r in
      (false, r)
  | RwControlUpdateCodecsMessage codecs =>
      let r := set_worker (applyCodecsToWorker (worker r) codecs) r in
      let r := set_pending_status true r in
      let r := call RtpWorker.update r in
      (false, r)
  | RwControlTransmitMessage transmit =>
      let r :=
        if useAudio transmit
        then call (RtpWorker.transmitAudio (audioIndex transmit)) r
        else call RtpWorker.pauseAudio r in
      let r :=
        if useVideo transmit
        then call (RtpWorker.transmitVideo (videoIndex transmit)) r
        else call RtpWorker.pauseVideo r in
      (true, r)
  | RwControlRecordMessage record =>
      let r :=
        if enabled record
        then call RtpWorker.recordStart r
        else call RtpWorker.recordStop r in
      (true, r)
  | _ => (true, r)
  end.

(** The [while(1)] loop of [processMessages].  [q] is the content of [in]
    when the iteration starts; [processMessage] does not touch [in], and
    nothing is posted while the loop runs (the convention on atomicity),
    so the loop walks down [q]. *)
Fixpoint processMessages_loop (q : list RwControlMessage) (r : t) : t :=
  match q with
  | [] => set_in [] r
  | msg :: rest =>
      let '(ret, r) := processMessage msg (set_in rest r) in
      if ret
      then processMessages_loop rest r
      else
        let r := set_blocking true r in
        if timer r then set_timer false r else r
  end.

(** [processMessages()]; it always returns [FALSE], which removes the
    timeout source that called it. *)
Definition processMessages (r : t) : t :=
  let r := set_timer false r in
  processMessages_loop (in_ r) r.

Definition resumeMessages (r : t) : t :=
  if blocking r
  then
    let r := set_blocking false r in
    if negb (isEmpty (in_ r)) && negb (timer r) then set_timer true r else r
  else r.

Definition postMessage (r : t) (msg : RwControlMessage) : t :=
  let r := set_in (in_ r ++ [msg]) r in
  if negb (blocking r) && negb (timer r) then set_timer true r else r.

(** *** Callbacks from the worker

    Each takes and returns both objects, as [local_] is a pointer to the
    [RwControlLocal] whose inbox the callback fills. *)
Definition worker_started (r : t) (l : RwControlLocal.t)
    : t * RwControlLocal.t :=
  let r := set_pending_status false r in
  let msg := RwControlStatusMessage (statusFromWorker (worker r)) in
  let l := RwControlLocal.postMessage l msg in
  let r := resumeMessages r in
  (r, l).

Definition worker_updated (r : t) (l : RwControlLocal.t)
    : t * RwControlLocal.t :=
  let '(r, l) :=
    if pending_status r
    then
      let r := set_pending_status false r in
      let msg := RwControlStatusMessage (statusFromWorker (worker r)) in
      (r, RwControlLocal.postMessage l msg)
    else (r, l) in
  let r := resumeMessages r in
  (r, l).

Definition worker_stopped (r : t) (l : RwControlLocal.t)
    : t * RwControlLocal.t :=
  let r := set_pending_status false r in
  let status := statusFromWorker (worker r) in
  let status := RwControlStatus.set_stopped true status in
  (r, RwControlLocal.postMessage l (RwControlStatusMessage status)).

Definition worker_finished (r : t) (l : RwControlLocal.t)
    : t * RwControlLocal.t :=
  let status := statusFromWorker (worker r) in
  let status := RwControlStatus.set_finished true status in
  (r, RwControlLocal.postMessage l (RwControlStatusMessage status)).

Definition worker_error (r : t) (l : RwControlLocal.t)
    : t * RwControlLocal.t :=
  let status := statusFromWorker (worker r) in
  let status :=
    RwControlStatus.set_error true (RtpWorker.error (worker r)) status in
  (r, RwControlLocal.postMessage l (RwControlStatusMessage status)).

Definition worker_audioIntensity (v : Z) (r : t) (l : RwControlLocal.t)
    : t * RwControlLocal.t :=
  (r, RwControlLocal.postMessage l
        (RwControlAudioIntensityMessage {| value := v |})).

Definition worker_previewFrame (img : QImage) (r : t) (l : RwControlLocal.t)
    : t * RwControlLocal.t :=
  (r, RwControlLocal.postMessage l
        (RwControlFrameMessage {| type := Preview; image := img |})).

Definition worker_outputFrame (img : QImage) (r : t) (l : RwControlLocal.t)
    : t * RwControlLocal.t :=
  (r, RwControlLocal.postMessage l
        (RwControlFrameMessage {| type := Output; image := img |})).
End Def.
Arguments t {M}.
End RwControlRemote.

(** ** The two objects together *)

Module Channel.
Section Def.
Context {M : MediaTypes}.

Record t : Type := {
  local : RwControlLocal.t;
  remote : RwControlRemote.t
}.

(** Both constructors have run; [w] is the worker just made. *)
Definition new (w : RtpWorker.t) : t :=
  {| local := RwControlLocal.new; remote := RwControlRemote.new w |}.

(** [remote_->postMessage(msg)], the body of every command of
    [RwControlLocal]. *)
Definition command (msg : RwControlMessage) (c : t) : t :=
  {| local := local c;
     remote := RwControlRemote.postMessage (remote c) msg |}.

Definition start (devices : RwControlConfigDevices)
    (codecs : RwControlConfigCodecs.t) : t -> t :=
  command (RwControlStartMessage devices codecs).

Definition stop : t -> t := command RwControlStopMessage.

Definition updateDevices (devices : RwControlConfigDevices) : t -> t :=
  command (RwControlUpdateDevicesMessage devices).

Definition updateCodecs (codecs : RwControlConfigCodecs.t) : t -> t :=
  command (RwControlUpdateCodecsMessage codecs).

Definition setTransmit (transmit : RwControlTransmit) : t -> t :=
  command (RwControlTransmitMessage transmit).

Definition setRecord (record : RwControlRecord) : t -> t :=
  command (RwControlRecordMessage record).

(** The five completion callbacks of the worker. *)
Inductive completion : Type :=
| started | updated | stopped | finished | error.

Definition fired (k : completion) : RtpWorker.action :=
  match k with
  | started => RtpWorker.cb_started
  | updated => RtpWorker.cb_updated
  | stopped => RtpWorker.cb_stopped
  | finished => RtpWorker.cb_finished
  | error => RtpWorker.cb_error
  end.

Definition handler (k : completion)
    : RwControlRemote.t -> RwControlLocal.t
      -> RwControlRemote.t * RwControlLocal.t :=
  match k with
  | started => RwControlRemote.worker_started
  | updated => RwControlRemote.worker_updated
  | stopped => RwControlRemote.worker_stopped
  | finished => RwControlRemote.worker_finished
  | error => RwControlRemote.worker_error
  end.

Definition callback
    (h : RwControlRemote.t -> RwControlLocal.t
         -> RwControlRemote.t * RwControlLocal.t) (c : t) : t :=
  let '(r, l) := h (remote c) (local c) in
  {| local := l; remote := r |}.

(** The worker invokes [cb_started] and its siblings: the crossing is
    written to the worker's trace, then the handler of [RwControlRemote]
    runs. *)
Definition complete (k : completion) (c : t) : t :=
  let r := RwControlRemote.call (fired k) (remote c) in
  callback (handler k) {| local := local c; remote := r |}.

(** The event loop of the remote thread runs the scheduled
    [cb_processMessages]; nothing happens when no timer is set. *)
Definition remoteWake (c : t) : t :=
  if RwControlRemote.timer (remote c)
  then {| local := local c;
          remote := RwControlRemote.processMessages (remote c) |}
  else c.

(** What can happen to the pair of objects, one step at a time. *)
Inductive event : Type :=
| Command (msg : RwControlMessage)
| RemoteWake
| Completes (k : completion)
| AudioIntensity (v : Z)
| PreviewFrame (img : QImage)
| OutputFrame (img : QImage)
| WorkerSets (w : RtpWorker.t)
| LocalWake (obs : RwControlLocal.observer)
| Destroy.

(** [WorkerSets w]: the worker changes its own fields (negotiated
    parameters, capabilities, error code) to those of [w]; its trace is
    not the worker's to rewrite. *)
Definition workerSets (w : RtpWorker.t) (c : t) : t :=
  let old := RwControlRemote.worker (remote c) in
  let w' :=
    {| RtpWorker.aout := RtpWorker.aout w;
       RtpWorker.ain := RtpWorker.ain w;
       RtpWorker.vin := RtpWorker.vin w;
       RtpWorker.infile := RtpWorker.infile w;
       RtpWorker.indata := RtpWorker.indata w;
       RtpWorker.loopFile := RtpWorker.loopFile w;
       RtpWorker.localAudioParams := RtpWorker.localAudioParams w;
       RtpWorker.localVideoParams := RtpWorker.localVideoParams w;
       RtpWorker.localAudioPayloadInfo := RtpWorker.localAudioPayloadInfo w;
       RtpWorker.localVideoPayloadInfo := RtpWorker.localVideoPayloadInfo w;
       RtpWorker.remoteAudioPayloadInfo := RtpWorker.remoteAudioPayloadInfo w;
       RtpWorker.remoteVideoPayloadInfo := RtpWorker.remoteVideoPayloadInfo w;
       RtpWorker.canTransmitAudio := RtpWorker.canTransmitAudio w;
       RtpWorker.canTransmitVideo := RtpWorker.canTransmitVideo w;
       RtpWorker.error := RtpWorker.error w;
       RtpWorker.trace := RtpWorker.trace old |} in
  {| local := local c; remote := RwControlRemote.set_worker w' (remote c) |}.

(** One step; [None] once the pair has been destroyed, by the caller or
    by an observer during a drain. *)
Definition step (e : event) (c : t) : option t :=
  match e with
  | Command msg => Some (command msg c)
  | RemoteWake => Some (remoteWake c)
  | Completes k => Some (complete k c)
  | AudioIntensity v =>
      Some (callback (RwControlRemote.worker_audioIntensity v) c)
  | PreviewFrame img =>
      Some (callback (RwControlRemote.worker_previewFrame img) c)
  | OutputFrame img =>
      Some (callback (RwControlRemote.worker_outputFrame img) c)
  | WorkerSets w => Some (workerSets w c)
  | LocalWake obs =>
      match fst (RwControlLocal.processMessages obs (local c)) with
      | Some l => Some {| local := l; remote := remote c |}
      | None => None
      end
  | Destroy => None
  end.

Fixpoint run (es : list event) (c : t) : option t :=
  match es with
  | [] => Some c
  | e :: es' =>
      match step e c with
      | Some c' => run es' c'
      | None => None
      end
  end.

(** The states the pair can be in. *)
Inductive reachable : t -> Prop :=
| reachable_new w : RtpWorker.trace w = [] -> reachable (new w)
| reachable_step e c c' : reachable c -> step e c = Some c' -> reachable c'.

(** *** Operations in flight

    An operation is in flight from the call of [start], [stop] or [update]
    to the next completion callback. *)
Definition dispatches (a : RtpWorker.action) : bool :=
  match a with
  | RtpWorker.start | RtpWorker.stop | RtpWorker.update => true
  | _ => false
  end.

Definition completes (a : RtpWorker.action) : bool :=
  match a with
  | RtpWorker.cb_started | RtpWorker.cb_updated | RtpWorker.cb_stopped
  | RtpWorker.cb_finished | RtpWorker.cb_error => true
  | _ => false
  end.

(** The largest number of operations ever in flight along a trace that
    starts with [n] of them in flight. *)
Fixpoint peakInFlight (n : nat) (tr : list RtpWorker.action) : nat :=
  match tr with
  | [] => n
  | a :: tr' =>
      Nat.max n
        (if dispatches a then peakInFlight (S n) tr'
         else if completes a then peakInFlight (Nat.pred n) tr'
         else peakInFlight n tr')
  end.
End Def.
Arguments t {M}.
Arguments event {M}.
End Channel.

(** ** What the spec's words mean on a batch

    Definitions that follow the specification, against which the code's
    loops are compared. *)

Section SpecSide.
Context {A : Type}.

(** The last element of [l] that [sel] accepts. *)
Fixpoint lastOccurrence (sel : A -> bool) (l : list A) : option A :=
  match l with
  | [] => None
  | x :: l' =>
      match lastOccurrence sel l' with
      | Some y => Some y
      | None => if sel x then Some x else None
      end
  end.

(** The elements [sel] accepts, but for the last of them. *)
Definition earlierOccurrences (sel : A -> bool) (l : list A) : list A :=
  removelast (filter sel l).

(** The elements [sel] rejects, in their order. *)
Definition others (sel : A -> bool) (l : list A) : list A :=
  filter (fun x => negb (sel x)) l.

Definition optionToList (o : option A) : list A :=
  match o with
  | Some x => [x]
  | None => []
  end.
End SpecSide.

Section SpecSignals.
Context {M : MediaTypes}.
Import RwControlLocal.

(** The message kinds a drain coalesces. *)
Definition coalesced (msg : RwControlMessage) : bool :=
  isFrameOfType Preview msg || isFrameOfType Output msg
  || isAudioIntensity msg.

(** At most one preview callback: the last preview frame of the batch. *)
Definition previewSignal (batch : list RwControlMessage) : list signal :=
  match lastOccurrence (isFrameOfType Preview) batch with
  | Some (RwControlFrameMessage f) => [previewFrame (image f)]
  | _ => []
  end.

(** At most one output callback: the last output frame of the batch. *)
Definition outputSignal (batch : list RwControlMessage) : list signal :=
  match lastOccurrence (isFrameOfType Output) batch with
  | Some (RwControlFrameMessage f) => [outputFrame (image f)]
  | _ => []
  end.

(** At most one intensity callback: the last intensity of the batch. *)
Definition intensitySignal (batch : list RwControlMessage) : list signal :=
  match lastOccurrence isAudioIntensity batch with
  | Some (RwControlAudioIntensityMessage a) =>
      [audioIntensityChanged (value a)]
  | _ => []
  end.

(** One status callback per Status message, in arrival order. *)
Definition statusSignals (batch : list RwControlMessage) : list signal :=
  flat_map
    (fun msg =>
       match msg with
       | RwControlStatusMessage status => [statusReady status]
       | _ => []
       end)
    batch.

(** The callbacks of a drain cycle in the order the spec fixes. *)
Definition expected (batch : list RwControlMessage) : list signal :=
  previewSignal batch ++ outputSignal batch ++ intensitySignal batch
  ++ statusSignals batch.

(** Delivery of [todo] after [done], up to and including the first
    callback during which the observer destroys the object; the flag
    tells whether the object outlived them all. *)
Fixpoint deliver (obs : observer) (done todo : list signal)
    : list signal * bool :=
  match todo with
  | [] => (done, true)
  | sg :: todo' =>
      if obs (done ++ [sg])
      then deliver obs (done ++ [sg]) todo'
      else (done ++ [sg], false)
  end.

(** [isFrameOfType ty] over both kinds. *)
Definition isFrame (msg : RwControlMessage) : bool :=
  isFrameOfType Preview msg || isFrameOfType Output msg.

(** The retention bound of the inbox, for every kind of frame. *)
Definition withinBound (q : list RwControlMessage) : Prop :=
  forall ty, count (filter (isFrameOfType ty) q) <= QUEUE_FRAME_MAX.
End SpecSignals.

Section SpecGate.
Context {M : MediaTypes}.

(** What one of the three blocks in front of the loop of
    [processMessages] comes to, for the scan that accepts [sel] and the
    callbacks [sigs] it has to make. *)
Definition block_result (obs : RwControlLocal.observer)
    (sel : RwControlMessage -> bool) (sigs : list RwControlLocal.signal)
    (lst : list RwControlMessage) (d : RwControlLocal.drain)
    : option (list RwControlMessage) * RwControlLocal.drain :=
  let r := deliver obs (RwControlLocal.emitted d) sigs in
  (if snd r then Some (others sel lst) else None,
   {| RwControlLocal.emitted := fst r;
      RwControlLocal.freed :=
        RwControlLocal.freed d ++ earlierOccurrences sel lst
        ++ optionToList (lastOccurrence sel lst)
        ++ (if snd r then [] else others sel lst) |}).

(** The commands after which [processMessage] returns [false]: the drain
    of the back inbox stops until the worker reports. *)
Definition blocks (msg : RwControlMessage) : bool :=
  match msg with
  | RwControlStartMessage _ _ | RwControlStopMessage
  | RwControlUpdateDevicesMessage _ | RwControlUpdateCodecsMessage _ => true
  | _ => false
  end.

(** The commands that set [pending_status]. *)
Definition marksPending (msg : RwControlMessage) : bool :=
  match msg with
  | RwControlStartMessage _ _ | RwControlStopMessage
  | RwControlUpdateCodecsMessage _ => true
  | _ => false
  end.

(** The callbacks that call [resumeMessages]. *)
Definition resumes (k : Channel.completion) : bool :=
  match k with
  | Channel.started | Channel.updated => true
  | _ => false
  end.

(** The gate of the back inbox: a scheduled drain finds it open, and a
    status is only pending while it is closed. *)
Definition gateInvariant (r : RwControlRemote.t) : Prop :=
  (RwControlRemote.timer r = true -> RwControlRemote.blocking r = false)
  /\ (RwControlRemote.pending_status r = true ->
      RwControlRemote.blocking r = true).
End SpecGate.

(** ** Sample data

    Concrete values on which the model is run. *)

Section Samples.
Local Existing Instance sampleTypes.

Definition sampleDevices : RwControlConfigDevices :=
  {| audioOutId := String.EmptyString; audioInId := String.EmptyString;
     videoInId := String.EmptyString; fileNameIn := String.EmptyString;
     fileDataIn := []; loopFile := false;
     audioOutVolume := 100; audioInVolume := 100 |}.

Definition sampleCodecs : @RwControlConfigCodecs.t sampleTypes :=
  {| RwControlConfigCodecs.useLocalAudioParams := true;
     RwControlConfigCodecs.useLocalVideoParams := false;
     RwControlConfigCodecs.useLocalAudioPayloadInfo := false;
     RwControlConfigCodecs.useLocalVideoPayloadInfo := false;
     RwControlConfigCodecs.useRemoteAudioPayloadInfo := false;
     RwControlConfigCodecs.useRemoteVideoPayloadInfo := false;
     RwControlConfigCodecs.localAudioParams := [7%nat];
     RwControlConfigCodecs.localVideoParams := [];
     RwControlConfigCodecs.localAudioPayloadInfo := [];
     RwControlConfigCodecs.localVideoPayloadInfo := [];
     RwControlConfigCodecs.remoteAudioPayloadInfo := [];
     RwControlConfigCodecs.remoteVideoPayloadInfo := [] |}.

Definition sampleWorker : @RtpWorker.t sampleTypes :=
  {| RtpWorker.aout := String.EmptyString; RtpWorker.ain := String.EmptyString;
     RtpWorker.vin := String.EmptyString; RtpWorker.infile := String.EmptyString;
     RtpWorker.indata := []; RtpWorker.loopFile := false;
     RtpWorker.localAudioParams := []; RtpWorker.localVideoParams := [];
     RtpWorker.localAudioPayloadInfo := [];
     RtpWorker.localVideoPayloadInfo := [];
     RtpWorker.remoteAudioPayloadInfo := [];
     RtpWorker.remoteVideoPayloadInfo := [];
     RtpWorker.canTransmitAudio := false; RtpWorker.canTransmitVideo := false;
     RtpWorker.error := 0; RtpWorker.trace := [] |}.

Definition sampleTransmit : RwControlTransmit :=
  {| useAudio := true; useVideo := false; audioIndex := 0; videoIndex := 0 |}.

Definition sampleRecord : RwControlRecord := {| enabled := true |}.

Definition samplePreview (img : nat) : @RwControlMessage sampleTypes :=
  RwControlFrameMessage {| type := Preview; image := img |}.

Definition sampleOutput (img : nat) : @RwControlMessage sampleTypes :=
  RwControlFrameMessage {| type := Output; image := img |}.

(** A back side blocked on a start, with a Stop waiting in its inbox. *)
Definition blockedOnStart : @RwControlRemote.t sampleTypes :=
  {| RwControlRemote.in_ := [RwControlStopMessage];
     RwControlRemote.blocking := true;
     RwControlRemote.timer := false;
     RwControlRemote.pending_status := true;
     RwControlRemote.worker := sampleWorker |}.

(** Stop and then Transmit are issued, the drain runs, and the worker fires
    the completion callback [k]: what is left of the gate of the back side
    (its [blocking], its [timer], its inbox). *)
Definition gateAfterStop (k : Channel.completion)
    : option (bool * bool * list (@RwControlMessage sampleTypes)) :=
  option_map
    (fun c =>
       (RwControlRemote.blocking (Channel.remote c),
        RwControlRemote.timer (Channel.remote c),
        RwControlRemote.in_ (Channel.remote c)))
    (Channel.run
       [Channel.Command RwControlStopMessage;
        Channel.Command (RwControlTransmitMessage sampleTransmit);
        Channel.RemoteWake;
        Channel.Completes k]
       (Channel.new sampleWorker)).
End Samples.

(** ** Further vocabulary for the two inboxes and the worker's trace *)

(** The last [n] elements of a list. *)
Definition lastN {A} (n : nat) (l : list A) : list A :=
  skipn (length l - n) l.

Section SpecTrace.
Context {M : MediaTypes}.

(** [msg->type == RwControlMessage::Status] *)
Definition isStatus (msg : RwControlMessage) : bool :=
  match msg with
  | RwControlStatusMessage _ => true
  | _ => false
  end.

(** The messages a drain of the front inbox has a callback for. *)
Definition deliverable (msg : RwControlMessage) : bool :=
  coalesced msg || isStatus msg.

(** The calls on the worker that one command stands for. *)
Definition callsOf (msg : RwControlMessage) : list RtpWorker.action :=
  match msg with
  | RwControlStartMessage devices _ =>
      [RtpWorker.setOutputVolume (audioOutVolume devices);
       RtpWorker.setInputVolume (audioInVolume devices);
       RtpWorker.start]
  | RwControlStopMessage => [RtpWorker.stop]
  | RwControlUpdateDevicesMessage devices =>
      [RtpWorker.setOutputVolume (audioOutVolume devices);
       RtpWorker.setInputVolume (audioInVolume devices);
       RtpWorker.update]
  | RwControlUpdateCodecsMessage _ => [RtpWorker.update]
  | RwControlTransmitMessage transmit =>
      [if useAudio transmit
       then RtpWorker.transmitAudio (audioIndex transmit)
       else RtpWorker.pauseAudio;
       if useVideo transmit
       then RtpWorker.transmitVideo (videoIndex transmit)
       else RtpWorker.pauseVideo]
  | RwControlRecordMessage record =>
      [if enabled record then RtpWorker.recordStart else RtpWorker.recordStop]
  | _ => []
  end.

(** The messages of an inbox that one drain gets to: those in front of the
    first command that closes the gate, and that command. *)
Fixpoint applied (q : list RwControlMessage) : list RwControlMessage :=
  match q with
  | [] => []
  | msg :: q' => msg :: (if blocks msg then [] else applied q')
  end.

(** Number of operations in flight at the end of a trace that starts with
    [n] of them in flight. *)
Fixpoint inFlight (n : nat) (tr : list RtpWorker.action) : nat :=
  match tr with
  | [] => n
  | a :: tr' =>
      if Channel.dispatches a then inFlight (S n) tr'
      else if Channel.completes a then inFlight (Nat.pred n) tr'
      else inFlight n tr'
  end.

(** The back side at rest: nothing queued, gate open. *)
Definition backIdle (r : RwControlRemote.t) : Prop :=
  RwControlRemote.in_ r = [] /\ RwControlRemote.blocking r = false.

(** The back side waiting for the worker: gate closed, no drain scheduled. *)
Definition backBlocked (r : RwControlRemote.t) : Prop :=
  RwControlRemote.blocking r = true /\ RwControlRemote.timer r = false.
End SpecTrace.

(** ** Sample states of the pair *)

Section SampleStates.
Local Existing Instance sampleTypes.

(** A fresh pair after the worker delivered one preview frame. *)
Definition sampleFramed : Channel.t :=
  Channel.callback (RwControlRemote.worker_previewFrame 1%nat)
    (Channel.new sampleWorker).

(** A fresh pair after [stop()] was called on the front side. *)
Definition sampleQueued : Channel.t :=
  Channel.command RwControlStopMessage (Channel.new sampleWorker).

(** The events of a whole session: start, stop, and the worker's reports. *)
Definition sampleSessionEvents : list Channel.event :=
  [Channel.Command (RwControlStartMessage sampleDevices sampleCodecs);
   Channel.Command RwControlStopMessage;
   Channel.RemoteWake;
   Channel.Completes Channel.started;
   Channel.RemoteWake;
   Channel.Completes Channel.stopped].

(** The pair after that session. *)
Definition sampleSession : Channel.t :=
  Channel.complete Channel.stopped
    (Channel.remoteWake
       (Channel.complete Channel.started
          (Channel.remoteWake
             (Channel.command RwControlStopMessage
                (Channel.command
                   (RwControlStartMessage sampleDevices sampleCodecs)
                   (Channel.new sampleWorker)))))).

(** A pair whose back side is blocked on a start, with a Stop waiting. *)
Definition sampleBlocked : Channel.t :=
  {| Channel.local := RwControlLocal.new; Channel.remote := blockedOnStart |}.

(** Commands to issue at rest: one that goes through, one that closes the
    gate, one that has to wait. *)
Definition sampleCommands : list RwControlMessage :=
  [RwControlTransmitMessage sampleTransmit;
   RwControlUpdateDevicesMessage sampleDevices;
   RwControlRecordMessage sampleRecord].

(** Fifteen preview frames around two output frames and a status. *)
Definition samplePushes : list RwControlMessage :=
  sampleOutput 100 :: map samplePreview (seq 1 8)
  ++ RwControlStatusMessage (statusFromWorker sampleWorker)
     :: sampleOutput 101 :: map samplePreview (seq 9 7).
End SampleStates.

(** * Properties *)

(** ** Lists *)

Section ListFacts.
Context {A : Type}.
Implicit Types (l pre suf : list A) (sel : A -> bool).

Lemma count_app l l' : count (l ++ l') = count l + count l'.
Proof. unfold count. rewrite length_app. lia. Qed.

Lemma at_app_count pre suf : at_ (pre ++ suf) (count pre) = hd_error suf.
Proof.
  unfold at_, count. destruct (Z.ltb_spec (Z.of_nat (length pre)) 0); [lia|].
  rewrite Nat2Z.id, nth_error_app2 by lia.
  rewrite Nat.sub_diag. destruct suf; reflexivity.
Qed.

Lemma removeAt_app_count pre x suf :
  removeAt (pre ++ x :: suf) (count pre) = pre ++ suf.
Proof.
  unfold removeAt.
  assert (Hin : (0 <=? count pre) && (count pre <? count (pre ++ x :: suf)) = true).
  { rewrite count_app. unfold count. cbn [length].
    apply andb_true_intro; split; [apply Z.leb_le | apply Z.ltb_lt]; lia. }
  rewrite Hin. unfold count. rewrite Nat2Z.id.
  rewrite firstn_app, Nat.sub_diag, firstn_all, app_nil_r.
  rewrite skipn_app, skipn_all2 by lia.
  replace (S (length pre) - length pre)%nat with 1%nat by lia.
  reflexivity.
Qed.

Lemma lastOccurrence_app sel l l' :
  lastOccurrence sel (l ++ l') =
  match lastOccurrence sel l' with
  | Some y => Some y
  | None => lastOccurrence sel l
  end.
Proof.
  induction l as [|x l IH]; cbn.
  - destruct (lastOccurrence sel l'); reflexivity.
  - rewrite IH. destruct (lastOccurrence sel l'); reflexivity.
Qed.

Lemma lastOccurrence_accepts sel l x :
  lastOccurrence sel l = Some x -> sel x = true.
Proof.
  induction l as [|y l IH]; cbn; [discriminate|].
  destruct (lastOccurrence sel l).
  - intros [= ->]. now apply IH.
  - destruct (sel y) eqn:E; [intros [= ->]; exact E | discriminate].
Qed.

Lemma lastOccurrence_none sel l :
  lastOccurrence sel l = None <-> filter sel l = [].
Proof.
  induction l as [|y l IH]; cbn; [tauto|].
  destruct (lastOccurrence sel l) as [z|].
  - split; [discriminate|]. intros H. exfalso.
    destruct (sel y); [discriminate|].
    apply IH in H. discriminate.
  - destruct (sel y); split; try discriminate; intros _;
      [now apply IH | reflexivity].
Qed.

(** The last occurrence, located: nothing after it is accepted. *)
Lemma lastOccurrence_split sel l x :
  lastOccurrence sel l = Some x <->
  exists pre post,
    l = pre ++ x :: post /\ sel x = true /\ filter sel post = [].
Proof.
  split.
  - induction l as [|y l IH]; cbn; [discriminate|].
    destruct (lastOccurrence sel l) as [z|] eqn:E.
    + intros [= ->]. destruct (IH eq_refl) as (pre & post & -> & Hx & Hp).
      exists (y :: pre), post. auto.
    + destruct (sel y) eqn:Ey; [|discriminate]. intros [= ->].
      exists [], l. repeat split; auto. now apply lastOccurrence_none.
  - intros (pre & post & -> & Hx & Hp).
    rewrite lastOccurrence_app. cbn.
    apply lastOccurrence_none in Hp. now rewrite Hp, Hx.
Qed.

Lemma filter_lastOccurrence sel l :
  filter sel l = earlierOccurrences sel l ++ optionToList (lastOccurrence sel l).
Proof.
  unfold earlierOccurrences.
  induction l as [|y l IH]; cbn; [reflexivity|].
  destruct (sel y) eqn:Ey.
  - destruct (lastOccurrence sel l) as [z|] eqn:E.
    + destruct (filter sel l) as [|u f] eqn:Ef.
      * apply lastOccurrence_none in Ef. congruence.
      * cbn in IH |- *. now rewrite IH.
    + apply lastOccurrence_none in E. rewrite E. reflexivity.
  - destruct (lastOccurrence sel l); exact IH.
Qed.

Lemma filter_filter_implied (p q : A -> bool) l :
  (forall x, p x = true -> q x = true) ->
  filter p (filter q l) = filter p l.
Proof.
  intros Hpq. induction l as [|y l IH]; cbn; [reflexivity|].
  destruct (q y) eqn:Eq; cbn.
  - now rewrite IH.
  - destruct (p y) eqn:Ep; [|exact IH].
    apply Hpq in Ep. congruence.
Qed.

Lemma filter_filter_comm (p q : A -> bool) l :
  filter p (filter q l) = filter (fun x => q x && p x) l.
Proof.
  induction l as [|y l IH]; cbn; [reflexivity|].
  destruct (q y); cbn; [destruct (p y)|]; now rewrite IH.
Qed.

Lemma lastOccurrence_filter (p q : A -> bool) l :
  (forall x, p x = true -> q x = true) ->
  lastOccurrence p (filter q l) = lastOccurrence p l.
Proof.
  intros Hpq. induction l as [|y l IH]; cbn; [reflexivity|].
  destruct (q y) eqn:Eq; cbn; rewrite IH; [reflexivity|].
  destruct (p y) eqn:Ep; [|destruct (lastOccurrence p l); reflexivity].
  apply Hpq in Ep. congruence.
Qed.

Lemma Permutation_filter_others sel l :
  Permutation (filter sel l ++ others sel l) l.
Proof.
  unfold others. induction l as [|y l IH]; cbn; [constructor|].
  destruct (sel y); cbn.
  - now constructor.
  - symmetry. apply Permutation_cons_app. now symmetry.
Qed.
End ListFacts.

(** ** The static scans *)

Section Scans.
Context {M : MediaTypes}.
Implicit Types (lst pre suf freed : list RwControlMessage)
  (sel : RwControlMessage -> bool) (cur : option RwControlMessage).

(** The loop, started at position [count pre] of [pre ++ suf], leaves
    [pre] alone, keeps the last accepted message of [suf] (or what it
    held), frees every other accepted one and keeps the rest in order. *)
Lemma latest_loop_spec sel lst n cur freed :
  forall pre suf, lst = pre ++ suf -> n = count pre ->
  latest_loop sel lst n cur freed =
    (match lastOccurrence sel suf with Some y => Some y | None => cur end,
     pre ++ others sel suf,
     freed ++ removelast (deleteIfSet cur ++ filter sel suf)).
Proof.
  funelim (latest_loop sel lst n cur freed); intros pre suf Hl Hn; subst.
  - (* the loop's condition fails: nothing is left to scan *)
    destruct suf as [|x suf].
    + cbn. rewrite !app_nil_r.
      destruct cur; cbn; now rewrite app_nil_r.
    + exfalso.
      match goal with Hn : ~ _ < _ |- _ => apply Hn end.
      rewrite count_app. unfold count. cbn [length]. lia.
  - (* no message at a position inside the list: impossible *)
    exfalso.
    match goal with Hat : at_ _ _ = None |- _ =>
      pose proof Hat as Hhd; rewrite at_app_count in Hhd;
      destruct suf; [|discriminate Hhd]
    end.
    match goal with Hlt : _ < count _ |- _ => pose proof Hlt as Hc end.
    rewrite count_app in Hc. unfold count in Hc. cbn [length] in Hc. lia.
  - (* an accepted message: taken, the one held before is freed *)
    match goal with Hat : at_ _ _ = Some _ |- _ =>
      pose proof Hat as Hhd; rewrite at_app_count in Hhd;
      destruct suf as [|x suf]; [discriminate Hhd|];
      cbn in Hhd; injection Hhd as ->
    end.
    match goal with IH : forall pre suf, _ -> _ -> latest_loop _ _ _ _ _ = _ |- _ =>
      rewrite removeAt_app_count in IH |- *;
      rewrite (IH pre suf eq_refl) by lia
    end.
    match goal with Hs : sel _ = true |- _ => cbn; rewrite Hs end.
    destruct (lastOccurrence sel suf) eqn:E.
    + f_equal. rewrite <- app_assoc. f_equal.
      destruct (filter sel suf) as [|z f] eqn:Ef.
      { apply lastOccurrence_none in Ef. congruence. }
      change (msg :: z :: f) with ([msg] ++ z :: f).
      rewrite (removelast_app (deleteIfSet cur)) by discriminate.
      rewrite !removelast_app by discriminate.
      reflexivity.
    + apply lastOccurrence_none in E. rewrite E.
      f_equal. rewrite <- app_assoc. f_equal.
      rewrite (removelast_app (deleteIfSet cur)) by discriminate.
      cbn. now rewrite !app_nil_r.
  - (* a message of another kind: left in place *)
    match goal with Hat : at_ _ _ = Some _ |- _ =>
      pose proof Hat as Hhd; rewrite at_app_count in Hhd;
      destruct suf as [|x suf]; [discriminate Hhd|];
      cbn in Hhd; injection Hhd as ->
    end.
    match goal with IH : forall pre suf, _ -> _ -> latest_loop _ _ _ _ _ = _ |- _ =>
      rewrite (IH (pre ++ [msg]) suf)
    end.
    + match goal with Hs : sel _ = false |- _ =>
        unfold others; cbn; rewrite !Hs; cbn
      end.
      rewrite <- app_assoc.
      destruct (lastOccurrence sel suf); reflexivity.
    + now rewrite <- app_assoc.
    + rewrite count_app. reflexivity.
Qed.

Lemma getLatestFrameAndRemoveOthers_spec lst ty :
  getLatestFrameAndRemoveOthers lst ty =
    (lastOccurrence (isFrameOfType ty) lst,
     others (isFrameOfType ty) lst,
     earlierOccurrences (isFrameOfType ty) lst).
Proof.
  unfold getLatestFrameAndRemoveOthers.
  rewrite (latest_loop_spec _ _ _ [] lst eq_refl eq_refl). cbn.
  now destruct (lastOccurrence (isFrameOfType ty) lst).
Qed.

Lemma getLatestAudioIntensityAndRemoveOthers_spec lst :
  getLatestAudioIntensityAndRemoveOthers lst =
    (lastOccurrence isAudioIntensity lst,
     others isAudioIntensity lst,
     earlierOccurrences isAudioIntensity lst).
Proof.
  unfold getLatestAudioIntensityAndRemoveOthers.
  rewrite (latest_loop_spec _ _ _ [] lst eq_refl eq_refl). cbn.
  now destruct (lastOccurrence isAudioIntensity lst).
Qed.
End Scans.

(** Claim C5.  For every drained batch, the three scans of a drain, run one
    after the other as [processMessages] runs them, keep for each of
    preview frame, output frame and audio intensity exactly the last
    message of that kind in the batch, free exactly the earlier messages of
    that kind, and leave every other message of the batch, in its original
    order. *)
Theorem coalescing_keeps_last_of_each_kind {M : MediaTypes}
    (batch : list RwControlMessage) :
  let '(p, l1, f1) := getLatestFrameAndRemoveOthers batch Preview in
  let '(o, l2, f2) := getLatestFrameAndRemoveOthers l1 Output in
  let '(a, l3, f3) := getLatestAudioIntensityAndRemoveOthers l2 in
  p = lastOccurrence (isFrameOfType Preview) batch
  /\ f1 = earlierOccurrences (isFrameOfType Preview) batch
  /\ o = lastOccurrence (isFrameOfType Output) batch
  /\ f2 = earlierOccurrences (isFrameOfType Output) batch
  /\ a = lastOccurrence isAudioIntensity batch
  /\ f3 = earlierOccurrences isAudioIntensity batch
  /\ l3 = filter (fun msg => negb (coalesced msg)) batch.
Proof.
  rewrite !getLatestFrameAndRemoveOthers_spec,
    getLatestAudioIntensityAndRemoveOthers_spec.
  unfold others, earlierOccurrences.
  assert (HPO : forall x : RwControlMessage,
             isFrameOfType Output x = true ->
             negb (isFrameOfType Preview x) = true).
  { intros [] H; try discriminate. cbn in *. now destruct (type frame). }
  assert (HA : forall (ty : FrameType) (x : RwControlMessage),
             isAudioIntensity x = true -> negb (isFrameOfType ty x) = true).
  { intros ty [] H; try discriminate. reflexivity. }
  repeat split.
  - now apply lastOccurrence_filter.
  - now rewrite filter_filter_implied.
  - rewrite !lastOccurrence_filter; auto.
  - rewrite !filter_filter_implied; auto.
  - rewrite !filter_filter_comm. apply filter_ext. intros x.
    unfold coalesced.
    now destruct (isFrameOfType Preview x), (isFrameOfType Output x),
      (isAudioIntensity x).
Qed.

(** ** Retention of frames in the front inbox *)

Section Retention.
Context {M : MediaTypes}.
Implicit Types (q pre post : list RwControlMessage) (ty : FrameType).

Lemma queuedFrameInfo_loop_count q ty n cnt first firstPos :
  fst (queuedFrameInfo_loop q ty n cnt first firstPos) =
  cnt + count (filter (isFrameOfType ty) q).
Proof.
  revert n cnt first firstPos.
  induction q as [|msg q IH]; intros; cbn.
  - unfold count. cbn. lia.
  - destruct (isFrameOfType ty msg); rewrite IH; unfold count; cbn [length]; lia.
Qed.

Lemma queuedFrameInfo_loop_found q ty n cnt firstPos :
  snd (queuedFrameInfo_loop q ty n cnt false firstPos) = firstPos.
Proof.
  revert n cnt. induction q as [|msg q IH]; intros; cbn; [reflexivity|].
  destruct (isFrameOfType ty msg); apply IH.
Qed.

Lemma queuedFrameInfo_loop_first pre x post ty n cnt firstPos :
  filter (isFrameOfType ty) pre = [] ->
  isFrameOfType ty x = true ->
  snd (queuedFrameInfo_loop (pre ++ x :: post) ty n cnt true firstPos) =
  n + count pre.
Proof.
  intros Hpre Hx. revert n.
  induction pre as [|msg pre IH]; intros n; cbn.
  - rewrite Hx, queuedFrameInfo_loop_found. unfold count. cbn. lia.
  - cbn in Hpre. destruct (isFrameOfType ty msg); [discriminate|].
    rewrite IH by assumption. unfold count. cbn [length]. lia.
Qed.

(** The first accepted element of a list that has one. *)
Lemma first_occurrence_split (sel : RwControlMessage -> bool) q :
  filter sel q <> [] ->
  exists pre x post,
    q = pre ++ x :: post /\ sel x = true /\ filter sel pre = [].
Proof.
  induction q as [|msg q IH]; cbn; [congruence|].
  destruct (sel msg) eqn:E.
  - intros _. exists [], msg, q. auto.
  - intros H. destruct (IH H) as (pre & x & post & -> & Hx & Hpre).
    exists (msg :: pre), x, post. cbn. rewrite E. auto.
Qed.

(** A frame pushed onto a full window replaces the oldest of its kind. *)
Lemma postMessage_frame_full (l : RwControlLocal.t) (f : RwControlFrame) :
  QUEUE_FRAME_MAX
  <= count (filter (isFrameOfType (type f)) (RwControlLocal.in_ l)) ->
  exists pre oldest post,
    RwControlLocal.in_ l = pre ++ oldest :: post
    /\ isFrameOfType (type f) oldest = true
    /\ filter (isFrameOfType (type f)) pre = []
    /\ RwControlLocal.in_ (RwControlLocal.postMessage l (RwControlFrameMessage f))
       = pre ++ post ++ [RwControlFrameMessage f].
Proof.
  intros Hfull.
  destruct (first_occurrence_split (isFrameOfType (type f))
              (RwControlLocal.in_ l))
    as (pre & x & post & Hq & Hx & Hpre).
  { intros E. rewrite E in Hfull. unfold QUEUE_FRAME_MAX, count in Hfull.
    cbn in Hfull. lia. }
  exists pre, x, post. repeat split; auto.
  unfold RwControlLocal.postMessage, queuedFrameInfo.
  destruct (queuedFrameInfo_loop _ _ _ _ _ _) as [cnt firstPos] eqn:E.
  pose proof (queuedFrameInfo_loop_count (RwControlLocal.in_ l) (type f)
                0 0 true (-1)) as Hc.
  pose proof (queuedFrameInfo_loop_first pre x post (type f)
                0 0 (-1) Hpre Hx) as Hf.
  rewrite <- Hq, E in Hf. rewrite E in Hc. cbn [fst snd] in *.
  subst cnt firstPos.
  destruct (Z.geb_spec
              (0 + count (filter (isFrameOfType (type f))
                            (RwControlLocal.in_ l)))
              QUEUE_FRAME_MAX); [|lia].
  cbn [RwControlLocal.in_]. rewrite Hq. cbn [Z.add].
  rewrite removeAt_app_count. now rewrite <- app_assoc.
Qed.

(** A frame pushed below the bound is appended, nothing is removed. *)
Lemma postMessage_frame_room (l : RwControlLocal.t) (f : RwControlFrame) :
  count (filter (isFrameOfType (type f)) (RwControlLocal.in_ l))
  < QUEUE_FRAME_MAX ->
  RwControlLocal.in_ (RwControlLocal.postMessage l (RwControlFrameMessage f))
  = RwControlLocal.in_ l ++ [RwControlFrameMessage f].
Proof.
  intros Hroom.
  unfold RwControlLocal.postMessage, queuedFrameInfo.
  destruct (queuedFrameInfo_loop _ _ _ _ _ _) as [cnt firstPos] eqn:E.
  pose proof (queuedFrameInfo_loop_count (RwControlLocal.in_ l) (type f)
                0 0 true (-1)) as Hc.
  rewrite E in Hc. cbn [fst] in Hc. subst cnt.
  destruct (Z.geb_spec
              (0 + count (filter (isFrameOfType (type f))
                            (RwControlLocal.in_ l)))
              QUEUE_FRAME_MAX); [lia|].
  reflexivity.
Qed.

(** Any other message is appended, nothing is removed. *)
Lemma postMessage_other (l : RwControlLocal.t) (msg : RwControlMessage) :
  isFrame msg = false ->
  RwControlLocal.in_ (RwControlLocal.postMessage l msg)
  = RwControlLocal.in_ l ++ [msg].
Proof.
  destruct msg; try reflexivity.
  unfold isFrame. cbn. now destruct (type frame).
Qed.

(** Whatever is pushed ends up last in the inbox. *)
Lemma postMessage_last (l : RwControlLocal.t) (msg : RwControlMessage) :
  exists q,
    RwControlLocal.in_ (RwControlLocal.postMessage l msg) = q ++ [msg].
Proof. unfold RwControlLocal.postMessage. cbn. eauto. Qed.

Lemma filter_count_app (sel : RwControlMessage -> bool) q q' :
  count (filter sel (q ++ q')) = count (filter sel q) + count (filter sel q').
Proof. now rewrite filter_app, count_app. Qed.

(** A push keeps the bound. *)
Lemma postMessage_withinBound (l : RwControlLocal.t) (msg : RwControlMessage) :
  withinBound (RwControlLocal.in_ l) ->
  withinBound (RwControlLocal.in_ (RwControlLocal.postMessage l msg)).
Proof.
  intros Hb ty.
  destruct (isFrame msg) eqn:Em.
  - destruct msg; try discriminate.
    destruct (Z.lt_ge_cases
                (count (filter (isFrameOfType (type frame)) (RwControlLocal.in_ l)))
                QUEUE_FRAME_MAX) as [Hroom|Hfull].
    + rewrite postMessage_frame_room by assumption.
      rewrite filter_count_app. cbn [filter isFrameOfType].
      destruct (type frame) eqn:Ef, ty; cbn; unfold count in *; cbn [length];
        pose proof (Hb Preview); pose proof (Hb Output); unfold count in *; lia.
    + destruct (postMessage_frame_full l frame Hfull)
        as (pre & x & post & Hq & Hx & Hpre & ->).
      pose proof (Hb ty) as Hty. rewrite Hq in Hty.
      rewrite !filter_count_app in *. cbn [filter] in *.
      destruct x as [| | | | | | | |fx]; try discriminate. cbn in Hx.
      cbn [isFrameOfType] in *.
      destruct (type frame), (type fx), ty; try discriminate;
        cbn in *; unfold count in *; cbn [length] in *; lia.
  - rewrite postMessage_other by assumption.
    rewrite filter_count_app. specialize (Hb ty).
    destruct msg; cbn; unfold count in *; cbn [length]; try lia.
    unfold isFrame in Em. cbn in Em. now destruct (type frame).
Qed.
End Retention.

(** ** The drain of the front inbox *)

Section DrainFacts.
Context {M : MediaTypes}.
Import RwControlLocal.
Implicit Types (obs : observer) (lst batch : list RwControlMessage)
  (d : drain) (done todo : list signal).

Lemma deliver_app obs done todo todo' :
  deliver obs done (todo ++ todo') =
  let r := deliver obs done todo in
  if snd r then deliver obs (fst r) todo' else r.
Proof.
  revert done. induction todo as [|sg todo IH]; intros done; cbn.
  - reflexivity.
  - destruct (obs (done ++ [sg])); [apply IH | reflexivity].
Qed.

(** What is delivered extends what had been, by a prefix of [todo]. *)
Lemma deliver_prefix obs done todo :
  exists k,
    fst (deliver obs done todo) = done ++ firstn k todo
    /\ (snd (deliver obs done todo) = true -> firstn k todo = todo).
Proof.
  revert done. induction todo as [|sg todo IH]; intros done; cbn.
  - exists 0%nat. cbn. now rewrite app_nil_r.
  - destruct (obs (done ++ [sg])).
    + destruct (IH (done ++ [sg])) as (k & Hk & Hall).
      exists (S k). cbn. rewrite Hk, <- app_assoc. split; [reflexivity|].
      intros H. now rewrite Hall.
    + exists 1%nat. cbn. split; [reflexivity | discriminate].
Qed.

(** An observer that never destroys the object gets everything. *)
Lemma deliver_all obs done todo :
  (forall h, obs h = true) ->
  deliver obs done todo = (done ++ todo, true).
Proof.
  intros Hobs. revert done.
  induction todo as [|sg todo IH]; intros done; cbn.
  - now rewrite app_nil_r.
  - rewrite Hobs, IH, <- app_assoc. reflexivity.
Qed.

(** Nothing is delivered after a callback that destroyed the object, and
    the flag reports the destruction. *)
Lemma deliver_stops obs done todo pre sg post :
  fst (deliver obs done todo) = done ++ pre ++ sg :: post ->
  obs (done ++ pre ++ [sg]) = false ->
  post = [] /\ snd (deliver obs done todo) = false.
Proof.
  revert done pre. induction todo as [|x todo IH]; intros done pre; cbn.
  - intros H. exfalso.
    apply (f_equal (@length _)) in H. rewrite !length_app in H. cbn in H. lia.
  - destruct (obs (done ++ [x])) eqn:E.
    + destruct pre as [|y pre].
      * intros H Hd. exfalso.
        destruct (deliver_prefix obs (done ++ [x]) todo) as (k & Hk & _).
        rewrite Hk, <- app_assoc in H. apply app_inv_head in H.
        cbn in H. injection H as -> _. cbn in Hd. congruence.
      * intros H Hd.
        destruct (deliver_prefix obs (done ++ [x]) todo) as (k & Hk & _).
        pose proof H as H'. rewrite Hk, <- app_assoc in H'.
        apply app_inv_head in H'. cbn in H'. injection H' as -> _.
        apply (IH (done ++ [y]) pre).
        -- now rewrite H, <- app_assoc.
        -- now rewrite <- app_assoc.
    + cbn. intros H Hd. apply app_inv_head in H.
      destruct pre as [|y pre]; cbn in H.
      * injection H as _ <-. auto.
      * injection H as _ H. destruct pre; discriminate.
Qed.

Lemma remaining_spec obs lst d :
  remaining obs lst d =
  let r := deliver obs (emitted d) (statusSignals lst) in
  (if snd r then Some tt else None,
   {| emitted := fst r; freed := freed d ++ lst |}).
Proof.
  revert d. induction lst as [|msg lst IH]; intros d.
  - cbn. rewrite app_nil_r. now destruct d.
  - destruct msg;
      try (cbn; unfold bind, delete; cbn; rewrite IH; cbn;
           now rewrite <- app_assoc).
    cbn. unfold bind, delete, emit. cbn.
    destruct (obs (emitted d ++ [statusReady status])).
    + rewrite IH. cbn. now rewrite <- app_assoc.
    + cbn. now rewrite <- app_assoc.
Qed.

(** The three blocks are proved alike: rewrite with the scan's
    characterization, then follow the block on whether the scan kept a
    message, which can only be of the kind it was asked for. *)
Ltac block_by_cases obs sel lst :=
  destruct (lastOccurrence sel lst) as [msg|] eqn:E;
  [ apply lastOccurrence_accepts in E;
    destruct msg; try discriminate E;
    cbn; unfold bind, delete, emit, ret; cbn;
    match goal with |- context [obs ?h] => destruct (obs h) end;
    cbn; rewrite <- !app_assoc; cbn;
    rewrite ?app_nil_r; reflexivity
  | cbn; unfold bind, delete, ret; cbn; now rewrite !app_nil_r ].

Lemma latestPreview_spec obs lst d :
  latestPreview obs lst d =
  block_result obs (isFrameOfType Preview) (previewSignal lst) lst d.
Proof.
  unfold latestPreview, block_result, previewSignal.
  rewrite getLatestFrameAndRemoveOthers_spec.
  block_by_cases obs (isFrameOfType (M:=M) Preview) lst.
Qed.

Lemma latestOutput_spec obs lst d :
  latestOutput obs lst d =
  block_result obs (isFrameOfType Output) (outputSignal lst) lst d.
Proof.
  unfold latestOutput, block_result, outputSignal.
  rewrite getLatestFrameAndRemoveOthers_spec.
  block_by_cases obs (isFrameOfType (M:=M) Output) lst.
Qed.

Lemma latestAudioIntensity_spec obs lst d :
  latestAudioIntensity obs lst d =
  block_result obs isAudioIntensity (intensitySignal lst) lst d.
Proof.
  unfold latestAudioIntensity, block_result, intensitySignal.
  rewrite getLatestAudioIntensityAndRemoveOthers_spec.
  block_by_cases obs (isAudioIntensity (M:=M)) lst.
Qed.
End DrainFacts.

Section DispatchFacts.
Context {M : MediaTypes}.
Import RwControlLocal.
Implicit Types (obs : observer) (lst batch : list RwControlMessage)
  (d : drain).

Lemma Permutation_block (sel : RwControlMessage -> bool) lst :
  Permutation
    (earlierOccurrences sel lst ++ optionToList (lastOccurrence sel lst)
     ++ others sel lst)
    lst.
Proof.
  rewrite app_assoc, <- filter_lastOccurrence.
  apply Permutation_filter_others.
Qed.

Lemma outputSignal_others batch :
  outputSignal (others (isFrameOfType Preview) batch) = outputSignal batch.
Proof.
  unfold outputSignal, others. rewrite lastOccurrence_filter; [reflexivity|].
  intros [] H; try discriminate. cbn in *. now destruct (type frame).
Qed.

Lemma intensitySignal_others ty batch :
  intensitySignal (others (isFrameOfType ty) batch) = intensitySignal batch.
Proof.
  unfold intensitySignal, others. rewrite lastOccurrence_filter; [reflexivity|].
  intros [] H; try discriminate. reflexivity.
Qed.

Lemma statusSignals_others (sel : RwControlMessage -> bool) batch :
  (forall s, sel (RwControlStatusMessage s) = false) ->
  statusSignals (others sel batch) = statusSignals batch.
Proof.
  intros Hsel. unfold statusSignals, others.
  induction batch as [|msg batch IH]; cbn; [reflexivity|].
  destruct (sel msg) eqn:E; cbn; rewrite IH; [|reflexivity].
  destruct msg; try reflexivity. now rewrite Hsel in E.
Qed.

(** The whole of [dispatch]: the callbacks are those the spec lists, in
    its order, cut after the first one that destroyed the object; and on
    every path each message of the batch is freed once. *)
Lemma dispatch_spec obs batch d :
  exists gone,
    dispatch obs batch d =
      (let r := deliver obs (emitted d) (expected batch) in
       (if snd r then Some tt else None,
        {| emitted := fst r; freed := freed d ++ gone |}))
    /\ Permutation gone batch.
Proof.
  unfold dispatch, bind, expected.
  rewrite latestPreview_spec. unfold block_result.
  rewrite deliver_app. cbn zeta.
  destruct (deliver obs (emitted d) (previewSignal batch)) as [em1 [|]];
    cbn [fst snd].
  2:{ eexists. split; [reflexivity|]. apply Permutation_block. }
  rewrite latestOutput_spec. unfold block_result. cbn [emitted freed].
  rewrite outputSignal_others, deliver_app. cbn zeta.
  destruct (deliver obs em1 (outputSignal batch)) as [em2 [|]];
    cbn [fst snd].
  2:{ rewrite app_nil_r, <- !app_assoc. eexists. split; [reflexivity|].
      etransitivity; [|apply (Permutation_block (isFrameOfType Preview))].
      do 2 apply Permutation_app_head. apply Permutation_block. }
  rewrite latestAudioIntensity_spec. unfold block_result. cbn [emitted freed].
  rewrite !intensitySignal_others, deliver_app. cbn zeta.
  destruct (deliver obs em2 (intensitySignal batch)) as [em3 [|]];
    cbn [fst snd].
  2:{ rewrite !app_nil_r, <- !app_assoc. eexists. split; [reflexivity|].
      etransitivity; [|apply (Permutation_block (isFrameOfType Preview))].
      do 2 apply Permutation_app_head.
      etransitivity; [|apply (Permutation_block (isFrameOfType Output))].
      do 2 apply Permutation_app_head. apply Permutation_block. }
  rewrite remaining_spec. cbn [emitted freed]. cbn zeta.
  rewrite !statusSignals_others by reflexivity.
  rewrite !app_nil_r, <- !app_assoc. eexists. split; [reflexivity|].
  etransitivity; [|apply (Permutation_block (isFrameOfType Preview))].
  do 2 apply Permutation_app_head.
  etransitivity; [|apply (Permutation_block (isFrameOfType Output))].
  do 2 apply Permutation_app_head. apply Permutation_block.
Qed.
End DispatchFacts.

Section ProcessMessagesFacts.
Context {M : MediaTypes}.
Import RwControlLocal.
Implicit Types (obs : observer) (l : RwControlLocal.t).

Lemma local_processMessages_spec obs l :
  exists gone,
    processMessages obs l =
      (let r := deliver obs [] (expected (in_ l)) in
       (if snd r then Some {| in_ := []; wake_pending := false |} else None,
        {| emitted := fst r; freed := gone |}))
    /\ Permutation gone (in_ l).
Proof.
  unfold processMessages.
  destruct (dispatch_spec obs (in_ l) {| emitted := []; freed := [] |})
    as (gone & -> & Hperm).
  exists gone. split; [|exact Hperm]. cbn.
  now destruct (snd (deliver obs [] (expected (in_ l)))).
Qed.

(** The drain only stops early for a destruction. *)
Lemma deliver_dead obs done todo :
  snd (deliver obs done todo) = false ->
  obs (fst (deliver obs done todo)) = false.
Proof.
  revert done. induction todo as [|sg todo IH]; intros done; cbn.
  - discriminate.
  - destruct (obs (done ++ [sg])) eqn:E; [apply IH | now intros _].
Qed.

Lemma postMessages_last (msgs : list RwControlMessage)
    (msg : RwControlMessage) l :
  exists q,
    in_ (fold_left postMessage (msgs ++ [msg]) l) = q ++ [msg].
Proof. rewrite fold_left_app. cbn. apply postMessage_last. Qed.

Lemma previewFrame_not_later (batch : list RwControlMessage) (i : QImage) :
  ~ In (previewFrame i)
      (outputSignal batch ++ intensitySignal batch ++ statusSignals batch).
Proof.
  rewrite !in_app_iff. unfold outputSignal, intensitySignal, statusSignals.
  intros [H|[H|H]].
  - destruct (lastOccurrence _ batch) as [[]|]; cbn in H;
      try contradiction; destruct H as [H|[]]; discriminate.
  - destruct (lastOccurrence _ batch) as [[]|]; cbn in H;
      try contradiction; destruct H as [H|[]]; discriminate.
  - apply in_flat_map in H. destruct H as (msg & _ & H).
    destruct msg; cbn in H; try contradiction.
    destruct H as [H|[]]; discriminate.
Qed.

(** As soon as the last message pushed is a preview frame, the drain
    opens with the callback for that frame and has no other preview
    callback. *)
Lemma drain_after_preview_push obs l (msgs : list RwControlMessage)
    (img : QImage) :
  let last := RwControlFrameMessage {| type := Preview; image := img |} in
  let l' := fold_left postMessage (msgs ++ [last]) l in
  exists rest,
    emitted (snd (processMessages obs l')) = previewFrame img :: rest
    /\ forall i, ~ In (previewFrame i) rest.
Proof.
  intros last l'.
  destruct (postMessages_last msgs last l) as (q & Hq). fold l' in Hq.
  destruct (local_processMessages_spec obs l') as (gone & -> & _).
  cbn [snd emitted]. unfold expected, previewSignal.
  assert (Hlast : lastOccurrence (isFrameOfType Preview) (in_ l') = Some last).
  { rewrite Hq, lastOccurrence_app. reflexivity. }
  rewrite Hlast. unfold last. cbn [image app deliver].
  destruct (obs [previewFrame img]).
  - destruct (deliver_prefix obs [previewFrame img]
                (outputSignal (in_ l') ++ intensitySignal (in_ l')
                 ++ statusSignals (in_ l'))) as (k & -> & _).
    eexists. split; [reflexivity|].
    intros i Hin. apply (previewFrame_not_later (in_ l') i).
    revert Hin. generalize (outputSignal (in_ l') ++ intensitySignal (in_ l')
                             ++ statusSignals (in_ l')).
    intros todo. revert todo. induction k as [|k IH]; intros [|x todo];
      cbn; try tauto. intros [H|H]; [auto | right; now apply IH].
  - exists []. split; [reflexivity | intros i []].
Qed.
End ProcessMessagesFacts.

(** Claim C4.  Fifteen frames of kind Preview are pushed with
    [RwControlLocal::postMessage] (fourteen, then the fifteenth) and no drain
    runs in between: the next [processMessages] invokes the preview callback
    exactly once, first of all, with the image of the fifteenth frame. *)
Theorem fifteen_previews_deliver_the_last {M : MediaTypes}
    (obs : RwControlLocal.observer) (l : RwControlLocal.t)
    (before : list QImage) (fifteenth : QImage) :
  length before = 14%nat ->
  let frame img := RwControlFrameMessage {| type := Preview; image := img |} in
  let l' :=
    fold_left RwControlLocal.postMessage (map frame (before ++ [fifteenth])) l in
  exists rest,
    RwControlLocal.emitted (snd (RwControlLocal.processMessages obs l'))
    = RwControlLocal.previewFrame fifteenth :: rest
    /\ forall img, ~ In (RwControlLocal.previewFrame img) rest.
Proof.
  intros _ frame l'. subst l'. rewrite map_app. cbn [map].
  apply drain_after_preview_push.
Qed.

(** Claim C7.  In one drain cycle of [RwControlLocal::processMessages] the
    callbacks come in a fixed order: at most one preview callback (the last
    preview frame of the batch), then at most one output callback, then at
    most one audio-intensity callback, then one status callback per Status
    message in arrival order.  The drain delivers a prefix of that list, and
    the whole of it when no observer destroys the object. *)
Theorem callbacks_in_fixed_order {M : MediaTypes}
    (obs : RwControlLocal.observer) (l : RwControlLocal.t) :
  let batch := RwControlLocal.in_ l in
  let ordered :=
    previewSignal batch ++ outputSignal batch ++ intensitySignal batch
    ++ statusSignals batch in
  let delivered :=
    RwControlLocal.emitted (snd (RwControlLocal.processMessages obs l)) in
  (length (previewSignal batch) <= 1 /\ length (outputSignal batch) <= 1
   /\ length (intensitySignal batch) <= 1)%nat
  /\ delivered = fst (deliver obs [] ordered)
  /\ (exists rest, ordered = delivered ++ rest)
  /\ ((forall h, obs h = true) -> delivered = ordered).
Proof.
  intros batch ordered delivered. subst delivered.
  destruct (local_processMessages_spec obs l) as (gone & -> & _).
  cbn [snd RwControlLocal.emitted]. fold batch. unfold expected. fold ordered.
  repeat split.
  - unfold previewSignal.
    destruct (lastOccurrence _ batch) as [[]|]; cbn; lia.
  - unfold outputSignal.
    destruct (lastOccurrence _ batch) as [[]|]; cbn; lia.
  - unfold intensitySignal.
    destruct (lastOccurrence _ batch) as [[]|]; cbn; lia.
  - destruct (deliver_prefix obs [] ordered) as (k & -> & _). cbn.
    exists (skipn k ordered). symmetry. apply firstn_skipn.
  - intros Hobs. now rewrite deliver_all.
Qed.

(** Claim C9.  When a callback of a drain destroys the [RwControlLocal]
    object, [processMessages] notices when that callback returns: no
    callback follows it, the object is not touched again, and the messages
    still in the drained batch are freed.  On every path each message of
    the batch is freed exactly once, and the drain stops early for no other
    reason. *)
Theorem destruction_abandons_drain {M : MediaTypes}
    (obs : RwControlLocal.observer) (l : RwControlLocal.t) :
  let after := fst (RwControlLocal.processMessages obs l) in
  let d := snd (RwControlLocal.processMessages obs l) in
  (forall pre sg post,
      RwControlLocal.emitted d = pre ++ sg :: post ->
      obs (pre ++ [sg]) = false ->
      post = [] /\ after = None)
  /\ (after = None -> obs (RwControlLocal.emitted d) = false)
  /\ Permutation (RwControlLocal.freed d) (RwControlLocal.in_ l).
Proof.
  intros after d. subst after d.
  destruct (local_processMessages_spec obs l) as (gone & -> & Hperm).
  cbn [fst snd RwControlLocal.emitted RwControlLocal.freed].
  repeat split.
  - eapply (deliver_stops obs [] _ pre); eauto.
  - destruct (deliver_stops obs [] _ pre _ _ H H0) as [_ ->]. reflexivity.
  - intros H.
    destruct (snd (deliver obs [] (expected (RwControlLocal.in_ l)))) eqn:E;
      [discriminate|].
    now apply deliver_dead.
  - exact Hperm.
Qed.

(** ** The gate of the back inbox *)

Section GateFacts.
Context {M : MediaTypes}.
Import RwControlRemote.
Implicit Types (r : RwControlRemote.t) (l : RwControlLocal.t)
  (msg : RwControlMessage) (q pre rest : list RwControlMessage).

Lemma processMessage_returns msg r :
  fst (processMessage msg r) = negb (blocks msg).
Proof. destruct msg; reflexivity. Qed.

(** [processMessage] touches the worker and [pending_status] only. *)
Lemma processMessage_frame msg r :
  let r' := snd (processMessage msg r) in
  in_ r' = in_ r /\ blocking r' = blocking r /\ timer r' = timer r
  /\ pending_status r' = pending_status r || marksPending msg.
Proof.
  destruct msg; cbn; rewrite ?orb_true_r, ?orb_false_r; auto.
  - destruct (useAudio transmit), (useVideo transmit); cbn;
      rewrite ?orb_false_r; auto.
  - destruct (enabled record); cbn; rewrite ?orb_false_r; auto.
Qed.

Lemma marksPending_blocks msg : marksPending msg = true -> blocks msg = true.
Proof. destruct msg; cbn; congruence. Qed.

Lemma processMessages_loop_blocks pre msg rest r :
  forallb (fun m => negb (blocks m)) pre = true ->
  blocks msg = true ->
  let r' := processMessages_loop (pre ++ msg :: rest) r in
  blocking r' = true /\ in_ r' = rest /\ timer r' = false
  /\ pending_status r' = pending_status r || marksPending msg.
Proof.
  intros Hpre Hmsg. revert r.
  induction pre as [|m pre IH]; intros r; cbn [app processMessages_loop].
  - pose proof (processMessage_returns msg (set_in rest r)) as Hret.
    pose proof (processMessage_frame msg (set_in rest r)) as (Hin & _ & _ & Hp).
    destruct (processMessage msg (set_in rest r)) as [ret r1].
    cbn [fst snd] in *. rewrite Hmsg in Hret. subst ret. cbn.
    cbn in Hin, Hp. destruct (timer r1) eqn:Et; cbn; rewrite ?Et; auto.
  - cbn in Hpre. apply andb_prop in Hpre as [Hm Hpre].
    pose proof (processMessage_returns m (set_in (pre ++ msg :: rest) r)) as Hret.
    pose proof (processMessage_frame m (set_in (pre ++ msg :: rest) r))
      as (_ & _ & _ & Hp).
    destruct (processMessage m (set_in (pre ++ msg :: rest) r)) as [ret r1].
    cbn [fst snd] in *. rewrite Hm in Hret. subst ret.
    destruct (IH Hpre r1) as (Hb' & Hi' & Ht' & Hp').
    cbn zeta in *. rewrite Hb', Hi', Ht', Hp', Hp. repeat split.
    destruct (marksPending m) eqn:Em; [|now rewrite orb_false_r].
    apply marksPending_blocks in Em. rewrite Em in Hm. discriminate.
Qed.

Lemma processMessages_loop_drains q r :
  forallb (fun m => negb (blocks m)) q = true ->
  let r' := processMessages_loop q r in
  blocking r' = blocking r /\ in_ r' = [] /\ timer r' = timer r
  /\ pending_status r' = pending_status r.
Proof.
  revert r. induction q as [|m q IH]; intros r Hq; cbn [processMessages_loop].
  - cbn. auto.
  - cbn in Hq. apply andb_prop in Hq as [Hm Hq].
    pose proof (processMessage_returns m (set_in q r)) as Hret.
    pose proof (processMessage_frame m (set_in q r)) as (_ & Hb & Ht & Hp).
    destruct (processMessage m (set_in q r)) as [ret r1].
    cbn [fst snd] in *. rewrite Hm in Hret. subst ret.
    destruct (IH r1 Hq) as (Hb' & Hi' & Ht' & Hp').
    cbn zeta in *. rewrite Hb', Hi', Ht', Hp', Hb, Ht, Hp.
    cbn. repeat split.
    destruct m; try discriminate Hm; cbn; apply orb_false_r.
Qed.

(** The first blocking message of a list, if it has one. *)
Lemma first_blocking_split q :
  forallb (fun m => negb (blocks m)) q = true
  \/ exists pre msg rest,
       q = pre ++ msg :: rest
       /\ forallb (fun m => negb (blocks m)) pre = true
       /\ blocks msg = true.
Proof.
  induction q as [|m q IH]; [now left|].
  destruct (blocks m) eqn:E.
  - right. exists [], m, q. auto.
  - destruct IH as [IH|(pre & msg & rest & -> & Hpre & Hmsg)].
    + left. cbn. now rewrite E.
    + right. exists (m :: pre), msg, rest. cbn. rewrite E. auto.
Qed.

(** A drain that finds the gate open leaves it in order. *)
Lemma processMessages_gate r :
  blocking r = false -> pending_status r = false ->
  gateInvariant (processMessages r).
Proof.
  intros Hb Hp. unfold processMessages, gateInvariant.
  destruct (first_blocking_split (in_ (set_timer false r)))
    as [Hall|(pre & msg & rest & Hq & Hpre & Hmsg)].
  - destruct (processMessages_loop_drains _ (set_timer false r) Hall)
      as (Hb' & _ & Ht' & Hp').
    cbn zeta in *. rewrite Hb', Ht', Hp'. cbn. rewrite Hb, Hp.
    split; [auto | discriminate].
  - rewrite Hq.
    destruct (processMessages_loop_blocks pre msg rest (set_timer false r) Hpre Hmsg)
      as (Hb' & _ & Ht' & _).
    cbn zeta in *. rewrite Hb', Ht'. split; [discriminate | auto].
Qed.

Lemma resumeMessages_spec r :
  let r' := resumeMessages r in
  in_ r' = in_ r /\ pending_status r' = pending_status r
  /\ worker r' = worker r
  /\ blocking r' = false
  /\ timer r' = timer r || (blocking r && negb (isEmpty (in_ r))).
Proof.
  unfold resumeMessages. destruct r as [q [|] [|] p w]; cbn;
    destruct q; cbn; auto.
Qed.

Lemma remote_postMessage_spec r msg :
  let r' := postMessage r msg in
  in_ r' = in_ r ++ [msg] /\ blocking r' = blocking r
  /\ pending_status r' = pending_status r /\ worker r' = worker r
  /\ timer r' = timer r || negb (blocking r).
Proof.
  unfold postMessage. destruct r as [q [|] [|] p w]; cbn; auto.
Qed.
End GateFacts.

(** ** What holds in every state the pair can reach *)

Section Reachability.
Context {M : MediaTypes}.
Import Channel.
Implicit Types (c : Channel.t) (e : Channel.event) (k : completion).

Lemma handler_spec k r l :
  let r' := fst (handler k r l) in
  let l' := snd (handler k r l) in
  RwControlRemote.in_ r' = RwControlRemote.in_ r
  /\ RwControlRemote.worker r' = RwControlRemote.worker r
  /\ RwControlRemote.blocking r'
     = RwControlRemote.blocking r && negb (resumes k)
  /\ RwControlRemote.timer r'
     = RwControlRemote.timer r
       || (resumes k && RwControlRemote.blocking r
           && negb (isEmpty (RwControlRemote.in_ r)))
  /\ RwControlRemote.pending_status r'
     = match k with
       | started | updated | stopped => false
       | _ => RwControlRemote.pending_status r
       end
  /\ (RwControlLocal.in_ l' = RwControlLocal.in_ l
      \/ exists s,
           l' = RwControlLocal.postMessage l (RwControlStatusMessage s)).
Proof.
  destruct k, r as [q [|] [|] [|] w]; cbn;
    destruct q; cbn; repeat split; eauto.
Qed.

(** What each completion callback posts to the front side. *)
Lemma handler_posts k (r : RwControlRemote.t) (l : RwControlLocal.t) :
  snd (handler k r l)
  = match k with
    | started =>
        RwControlLocal.postMessage l
          (RwControlStatusMessage (statusFromWorker (RwControlRemote.worker r)))
    | updated =>
        if RwControlRemote.pending_status r
        then RwControlLocal.postMessage l
               (RwControlStatusMessage
                  (statusFromWorker (RwControlRemote.worker r)))
        else l
    | stopped =>
        RwControlLocal.postMessage l
          (RwControlStatusMessage
             (RwControlStatus.set_stopped true
                (statusFromWorker (RwControlRemote.worker r))))
    | finished =>
        RwControlLocal.postMessage l
          (RwControlStatusMessage
             (RwControlStatus.set_finished true
                (statusFromWorker (RwControlRemote.worker r))))
    | error =>
        RwControlLocal.postMessage l
          (RwControlStatusMessage
             (RwControlStatus.set_error true
                (RtpWorker.error (RwControlRemote.worker r))
                (statusFromWorker (RwControlRemote.worker r))))
    end.
Proof.
  destruct k; try reflexivity.
  cbn [handler]. unfold RwControlRemote.worker_updated.
  now destruct (RwControlRemote.pending_status r).
Qed.

Lemma step_gate e c c' :
  gateInvariant (remote c) -> step e c = Some c' ->
  gateInvariant (remote c').
Proof.
  intros Hinv Hstep. pose proof Hinv as [Ht Hp]. destruct e; cbn in Hstep;
    try (injection Hstep as <-); try exact Hinv.
  - (* a command is posted *)
    cbn. destruct (remote_postMessage_spec (remote c) msg)
      as (_ & Hb & Hps & _ & Hti).
    cbn zeta in *. unfold gateInvariant. rewrite Hb, Hps, Hti.
    split; [|exact Hp].
    destruct (RwControlRemote.timer (remote c)),
      (RwControlRemote.blocking (remote c)); cbn; auto.
  - (* the scheduled drain runs *)
    unfold remoteWake.
    destruct (RwControlRemote.timer (remote c)) eqn:Et;
      [|exact Hinv].
    cbn. specialize (Ht eq_refl).
    apply processMessages_gate; [exact Ht|].
    destruct (RwControlRemote.pending_status (remote c)); [|reflexivity].
    rewrite Hp in Ht by reflexivity. discriminate.
  - (* a completion callback *)
    unfold complete, callback. cbn [local remote].
    pose proof (handler_spec k (RwControlRemote.call (fired k) (remote c)) (local c))
      as (_ & _ & Hb & Hti & Hps & _).
    destruct (handler k _ _) as [r' l']. cbn [fst snd remote] in *.
    unfold gateInvariant. rewrite Hb, Hti, Hps. cbn.
    destruct (RwControlRemote.timer (remote c)),
      (RwControlRemote.blocking (remote c)),
      (RwControlRemote.pending_status (remote c)), k,
      (isEmpty (RwControlRemote.in_ (remote c)));
      cbn in *; split; auto; try discriminate;
      try (intros _; now apply Ht); try (intros _; now apply Hp).
  - (* the front inbox is drained *)
    destruct (fst (RwControlLocal.processMessages obs (local c)));
      [|discriminate].
    injection Hstep as <-. exact Hinv.
  - discriminate.
Qed.

Lemma reachable_gate c : reachable c -> gateInvariant (remote c).
Proof.
  induction 1 as [w _|e c c' _ IH Hstep].
  - split; discriminate.
  - eapply step_gate; eauto.
Qed.

Lemma step_withinBound e c c' :
  withinBound (RwControlLocal.in_ (local c)) -> step e c = Some c' ->
  withinBound (RwControlLocal.in_ (local c')).
Proof.
  intros Hb Hstep. destruct e; cbn in Hstep;
    try (injection Hstep as <-); try exact Hb;
    try (now apply postMessage_withinBound).
  - unfold remoteWake. now destruct (RwControlRemote.timer (remote c)).
  - unfold complete, callback. cbn [local remote].
    pose proof (handler_spec k (RwControlRemote.call (fired k) (remote c)) (local c))
      as (_ & _ & _ & _ & _ & Hl).
    destruct (handler k _ _) as [r' l']. cbn [fst snd local] in *.
    destruct Hl as [->|(s & ->)]; [exact Hb|].
    now apply postMessage_withinBound.
  - destruct (local_processMessages_spec obs (local c))
      as (gone & Hpm & _).
    rewrite Hpm in Hstep. cbn in Hstep.
    destruct (snd (deliver obs [] _)); [|discriminate].
    injection Hstep as <-. cbn. intros ty. cbn. unfold QUEUE_FRAME_MAX. lia.
  - discriminate.
Qed.

Lemma reachable_withinBound c :
  reachable c -> withinBound (RwControlLocal.in_ (local c)).
Proof.
  induction 1 as [w _|e c c' _ IH Hstep].
  - intros ty. cbn. unfold QUEUE_FRAME_MAX. lia.
  - eapply step_withinBound; eauto.
Qed.
End Reachability.

(** ** The claims on the back side *)

(** Claim C1, as the code has it.  [processMessage] makes the worker calls
    of a Transmit or Record command and returns [true], so the drain of the
    back inbox goes on (as it does for any message that is not a command);
    it returns [false] for Start, Stop, UpdateDevices and UpdateCodecs.  So
    [processMessages] applies the messages in front of the first of these
    four, applies that one, sets [blocking], clears [timer] and leaves the
    rest queued; with none of the four in the inbox it empties the inbox
    and leaves [blocking] alone. *)
Theorem drain_stops_at_asynchronous_commands {M : MediaTypes}
    (r : RwControlRemote.t) :
  (forall msg, fst (RwControlRemote.processMessage msg r) = negb (blocks msg))
  /\ (forall t,
        blocks (RwControlTransmitMessage t) = false
        /\ RwControlRemote.processMessage (RwControlTransmitMessage t) r
           = (true,
              RwControlRemote.call
                (if useVideo t then RtpWorker.transmitVideo (videoIndex t)
                 else RtpWorker.pauseVideo)
                (RwControlRemote.call
                   (if useAudio t then RtpWorker.transmitAudio (audioIndex t)
                    else RtpWorker.pauseAudio) r)))
  /\ (forall rc,
        blocks (RwControlRecordMessage rc) = false
        /\ RwControlRemote.processMessage (RwControlRecordMessage rc) r
           = (true,
              RwControlRemote.call
                (if enabled rc then RtpWorker.recordStart
                 else RtpWorker.recordStop) r))
  /\ (forall d c,
        blocks (RwControlStartMessage d c) = true
        /\ blocks RwControlStopMessage = true
        /\ blocks (RwControlUpdateDevicesMessage d) = true
        /\ blocks (RwControlUpdateCodecsMessage c) = true)
  /\ (forall pre msg rest,
        RwControlRemote.in_ r = pre ++ msg :: rest ->
        forallb (fun m => negb (blocks m)) pre = true ->
        blocks msg = true ->
        RwControlRemote.blocking (RwControlRemote.processMessages r) = true
        /\ RwControlRemote.in_ (RwControlRemote.processMessages r) = rest
        /\ RwControlRemote.timer (RwControlRemote.processMessages r) = false)
  /\ (forallb (fun m => negb (blocks m)) (RwControlRemote.in_ r) = true ->
        RwControlRemote.blocking (RwControlRemote.processMessages r)
        = RwControlRemote.blocking r
        /\ RwControlRemote.in_ (RwControlRemote.processMessages r) = []).
Proof.
  split; [intros msg; apply processMessage_returns|].
  split.
  { intros t. split; [reflexivity|]. cbn.
    now destruct (useAudio t), (useVideo t). }
  split.
  { intros rc. split; [reflexivity|]. cbn. now destruct (enabled rc). }
  split; [intros; repeat split; reflexivity|].
  split.
  - intros pre msg rest Hq Hpre Hmsg. unfold RwControlRemote.processMessages.
    change (RwControlRemote.in_ (RwControlRemote.set_timer false r))
      with (RwControlRemote.in_ r).
    rewrite Hq.
    destruct (processMessages_loop_blocks pre msg rest
                (RwControlRemote.set_timer false r) Hpre Hmsg)
      as (Hb & Hi & Ht & _).
    auto.
  - intros Hall. unfold RwControlRemote.processMessages.
    destruct (processMessages_loop_drains _ (RwControlRemote.set_timer false r) Hall)
      as (Hb & Hi & _). auto.
Qed.

(** Claim C10.  A Transmit command makes exactly two calls on the worker:
    [transmitAudio(audioIndex)] if [useAudio] and [pauseAudio()] otherwise,
    then [transmitVideo(videoIndex)] if [useVideo] and [pauseVideo()]
    otherwise; the audio call always comes first.  Nothing else changes and
    the drain goes on. *)
Theorem transmit_audio_then_video {M : MediaTypes}
    (t : RwControlTransmit) (r : RwControlRemote.t) :
  let audio :=
    if useAudio t then RtpWorker.transmitAudio (audioIndex t)
    else RtpWorker.pauseAudio in
  let video :=
    if useVideo t then RtpWorker.transmitVideo (videoIndex t)
    else RtpWorker.pauseVideo in
  RwControlRemote.processMessage (RwControlTransmitMessage t) r
  = (true, RwControlRemote.call video (RwControlRemote.call audio r))
  /\ RtpWorker.trace
       (RwControlRemote.worker
          (snd (RwControlRemote.processMessage (RwControlTransmitMessage t) r)))
     = RtpWorker.trace (RwControlRemote.worker r) ++ [audio; video].
Proof.
  cbn. destruct (useAudio t), (useVideo t); cbn;
    rewrite <- app_assoc; split; reflexivity.
Qed.

(** Claim C2, as the code has it.  Of the five completion callbacks only
    [worker_started] and [worker_updated] call [resumeMessages]: invoked
    while [blocking] is set, they clear it and, when the back inbox is not
    empty, leave a drain scheduled.  [worker_stopped], [worker_finished] and
    [worker_error] post their Status and leave [blocking] and [timer] as
    they were.  None of the five touches the back inbox or the worker.
    What each posts to the front side: [worker_started] the worker's
    status, [worker_updated] the same if one was pending and nothing
    otherwise, [worker_stopped], [worker_finished] and [worker_error] the
    worker's status with their own flag set (and the worker's error code). *)
Theorem completion_reopens_gate_for_started_and_updated {M : MediaTypes}
    (k : Channel.completion) (r : RwControlRemote.t) (l : RwControlLocal.t) :
  RwControlRemote.blocking r = true ->
  let r' := fst (Channel.handler k r l) in
  let l' := snd (Channel.handler k r l) in
  let status := statusFromWorker (RwControlRemote.worker r) in
  RwControlRemote.in_ r' = RwControlRemote.in_ r
  /\ match k with
     | Channel.started | Channel.updated =>
         RwControlRemote.blocking r' = false
         /\ RwControlRemote.timer r'
            = RwControlRemote.timer r
              || negb (isEmpty (RwControlRemote.in_ r))
     | Channel.stopped | Channel.finished | Channel.error =>
         RwControlRemote.blocking r' = true
         /\ RwControlRemote.timer r' = RwControlRemote.timer r
     end
  /\ RwControlRemote.worker r' = RwControlRemote.worker r
  /\ l' = match k with
          | Channel.started =>
              RwControlLocal.postMessage l (RwControlStatusMessage status)
          | Channel.updated =>
              if RwControlRemote.pending_status r
              then RwControlLocal.postMessage l (RwControlStatusMessage status)
              else l
          | Channel.stopped =>
              RwControlLocal.postMessage l
                (RwControlStatusMessage
                   (RwControlStatus.set_stopped true status))
          | Channel.finished =>
              RwControlLocal.postMessage l
                (RwControlStatusMessage
                   (RwControlStatus.set_finished true status))
          | Channel.error =>
              RwControlLocal.postMessage l
                (RwControlStatusMessage
                   (RwControlStatus.set_error true
                      (RtpWorker.error (RwControlRemote.worker r)) status))
          end
  /\ (match k with
      | Channel.stopped | Channel.finished | Channel.error =>
          exists s,
            RwControlLocal.in_ l'
            = RwControlLocal.in_ l ++ [RwControlStatusMessage s]
            /\ RwControlStatus.stopped s
               = match k with
                 | Channel.stopped => true
                 | _ => RwControlStatus.stopped status
                 end
            /\ RwControlStatus.finished s
               = match k with
                 | Channel.finished => true
                 | _ => RwControlStatus.finished status
                 end
            /\ RwControlStatus.error s
               = match k with
                 | Channel.error => true
                 | _ => RwControlStatus.error status
                 end
      | _ => True
      end).
Proof.
  intros Hb r' l' status.
  pose proof (handler_spec k r l) as (Hi & Hw & Hb' & Ht & _).
  pose proof (handler_posts k r l) as Hl.
  cbn zeta in *. fold r' in Hi, Hw, Hb', Ht. fold l' in Hl.
  rewrite Hb in *. split; [exact Hi|]. split; [|split; [exact Hw|split]].
  - destruct k; cbn in *; rewrite ?andb_true_r, ?orb_false_r in *; auto.
  - exact Hl.
  - destruct k; try exact I; rewrite Hl; eexists;
      (split; [apply postMessage_other; reflexivity|]);
      repeat split; reflexivity.
Qed.

(** A drain sets [pending_status] exactly when one of the commands it
    processes marks a Status as pending. *)
Lemma processMessages_loop_pending {M : MediaTypes} q (r : RwControlRemote.t) :
  RwControlRemote.pending_status (RwControlRemote.processMessages_loop q r)
  = RwControlRemote.pending_status r || existsb marksPending (applied q).
Proof.
  revert r. induction q as [|msg q IH]; intros r; cbn [applied existsb].
  - cbn. now rewrite orb_false_r.
  - cbn [RwControlRemote.processMessages_loop].
    pose proof (processMessage_returns msg (RwControlRemote.set_in q r)) as Hret.
    pose proof (processMessage_frame msg (RwControlRemote.set_in q r))
      as (_ & _ & _ & Hp).
    cbn zeta in Hp.
    destruct (RwControlRemote.processMessage msg (RwControlRemote.set_in q r))
      as [ret r1] eqn:E.
    cbn [fst snd] in *. subst ret.
    change (RwControlRemote.pending_status (RwControlRemote.set_in q r))
      with (RwControlRemote.pending_status r) in Hp.
    destruct (blocks msg); cbn [negb].
    + cbn [existsb]. rewrite orb_false_r, <- Hp.
      now destruct (RwControlRemote.timer (RwControlRemote.set_blocking true r1)).
    + now rewrite IH, Hp, orb_assoc.
Qed.

(** Claim C8, as the code has it.  Processing UpdateDevices posts nothing
    and does not set [pending_status]; the commands that set it are Start,
    Stop and UpdateCodecs.  [worker_updated] posts a Status exactly when
    [pending_status] is set, and clears it.  In every state the pair can
    reach, the drain that meets an UpdateDevices command and the [updated]
    completion that follows leave the front inbox as it was.
    The flag is also cleared by [worker_started] and [worker_stopped], which
    post their Status whatever the flag was; [worker_finished] and
    [worker_error] post theirs and leave the flag alone.  Posting a command
    leaves the flag alone, and a drain sets it exactly when a command it
    processes marks a Status as pending.  So an [updated] that comes right
    after a [started], a [stopped] or another [updated] posts nothing.
    Step by step: a scheduled drain is the only event that sets the flag,
    the three completions above are the only ones that clear it, and every
    other event leaves it as it was. *)
Theorem updated_posts_status_when_pending {M : MediaTypes} :
  (forall msg r,
      RwControlRemote.pending_status (snd (RwControlRemote.processMessage msg r))
      = RwControlRemote.pending_status r || marksPending msg)
  /\ (forall d c dv,
        marksPending (RwControlStartMessage d c) = true
        /\ marksPending RwControlStopMessage = true
        /\ marksPending (RwControlUpdateCodecsMessage c) = true
        /\ marksPending (RwControlUpdateDevicesMessage dv) = false)
  /\ (forall r l,
        let r' := fst (RwControlRemote.worker_updated r l) in
        let l' := snd (RwControlRemote.worker_updated r l) in
        RwControlRemote.pending_status r' = false
        /\ l' = if RwControlRemote.pending_status r
                then RwControlLocal.postMessage l
                       (RwControlStatusMessage
                          (statusFromWorker (RwControlRemote.worker r)))
                else l)
  /\ (forall c pre d rest,
        Channel.reachable c ->
        RwControlRemote.timer (Channel.remote c) = true ->
        RwControlRemote.in_ (Channel.remote c)
        = pre ++ RwControlUpdateDevicesMessage d :: rest ->
        forallb (fun m => negb (blocks m)) pre = true ->
        let c1 := Channel.remoteWake c in
        let c2 := Channel.complete Channel.updated c1 in
        Channel.local c1 = Channel.local c
        /\ RwControlRemote.blocking (Channel.remote c1) = true
        /\ RwControlRemote.pending_status (Channel.remote c1) = false
        /\ Channel.local c2 = Channel.local c
        /\ RwControlRemote.blocking (Channel.remote c2) = false)
  /\ (forall k r l,
        RwControlRemote.pending_status (fst (Channel.handler k r l))
        = match k with
          | Channel.started | Channel.updated | Channel.stopped => false
          | Channel.finished | Channel.error =>
              RwControlRemote.pending_status r
          end)
  /\ (forall r l,
        let status := statusFromWorker (RwControlRemote.worker r) in
        snd (RwControlRemote.worker_started r l)
        = RwControlLocal.postMessage l (RwControlStatusMessage status)
        /\ snd (RwControlRemote.worker_stopped r l)
           = RwControlLocal.postMessage l
               (RwControlStatusMessage
                  (RwControlStatus.set_stopped true status))
        /\ snd (RwControlRemote.worker_finished r l)
           = RwControlLocal.postMessage l
               (RwControlStatusMessage
                  (RwControlStatus.set_finished true status))
        /\ snd (RwControlRemote.worker_error r l)
           = RwControlLocal.postMessage l
               (RwControlStatusMessage
                  (RwControlStatus.set_error true
                     (RtpWorker.error (RwControlRemote.worker r)) status)))
  /\ (forall r msg,
        RwControlRemote.pending_status (RwControlRemote.postMessage r msg)
        = RwControlRemote.pending_status r)
  /\ (forall r,
        RwControlRemote.pending_status (RwControlRemote.processMessages r)
        = RwControlRemote.pending_status r
          || existsb marksPending (applied (RwControlRemote.in_ r)))
  /\ (forall k r l,
        let r1 := fst (Channel.handler k r l) in
        let l1 := snd (Channel.handler k r l) in
        match k with
        | Channel.started | Channel.updated | Channel.stopped =>
            snd (RwControlRemote.worker_updated r1 l1) = l1
        | Channel.finished | Channel.error =>
            snd (RwControlRemote.worker_updated r1 l1)
            = if RwControlRemote.pending_status r
              then RwControlLocal.postMessage l1
                     (RwControlStatusMessage
                        (statusFromWorker (RwControlRemote.worker r)))
              else l1
        end)
  /\ (forall e c c',
        Channel.step e c = Some c' ->
        RwControlRemote.pending_status (Channel.remote c')
        = match e with
          | Channel.RemoteWake =>
              if RwControlRemote.timer (Channel.remote c)
              then RwControlRemote.pending_status (Channel.remote c)
                   || existsb marksPending
                        (applied (RwControlRemote.in_ (Channel.remote c)))
              else RwControlRemote.pending_status (Channel.remote c)
          | Channel.Completes Channel.started
          | Channel.Completes Channel.updated
          | Channel.Completes Channel.stopped => false
          | _ => RwControlRemote.pending_status (Channel.remote c)
          end).
Proof.
  split; [intros msg r; apply (processMessage_frame msg r)|].
  split; [intros; repeat split; reflexivity|].
  split; [|split; [|split; [|split; [|split; [|split; [|split]]]]]].
  - intros r l. unfold RwControlRemote.worker_updated.
    destruct (RwControlRemote.pending_status r) eqn:Ep; cbn;
      pose proof (resumeMessages_spec (RwControlRemote.set_pending_status false r))
        as (_ & Hp & _);
      pose proof (resumeMessages_spec r) as (_ & Hp' & _);
      cbn zeta in *; split; try reflexivity.
    + now rewrite Hp.
    + now rewrite Hp'.
  - intros c pre d rest Hreach Ht Hq Hpre c1 c2.
    destruct (reachable_gate Hreach) as [Hgt Hgp].
    specialize (Hgt Ht).
    assert (Hp : RwControlRemote.pending_status (Channel.remote c) = false).
    { destruct (RwControlRemote.pending_status (Channel.remote c));
        [|reflexivity]. rewrite Hgp in Hgt by reflexivity. discriminate. }
    assert (Hc1 : c1 = {| Channel.local := Channel.local c;
                          Channel.remote :=
                            RwControlRemote.processMessages (Channel.remote c) |}).
    { subst c1. unfold Channel.remoteWake. now rewrite Ht. }
    destruct (processMessages_loop_blocks pre (RwControlUpdateDevicesMessage d)
                rest (RwControlRemote.set_timer false (Channel.remote c))
                Hpre eq_refl) as (Hb1 & _ & _ & Hp1).
    cbn zeta in Hb1, Hp1.
    change (RwControlRemote.pending_status
              (RwControlRemote.set_timer false (Channel.remote c)))
      with (RwControlRemote.pending_status (Channel.remote c)) in Hp1.
    rewrite Hp in Hp1. cbn in Hp1.
    assert (Hpm : RwControlRemote.processMessages (Channel.remote c)
                  = RwControlRemote.processMessages_loop
                      (pre ++ RwControlUpdateDevicesMessage d :: rest)
                      (RwControlRemote.set_timer false (Channel.remote c))).
    { unfold RwControlRemote.processMessages. cbn. now rewrite Hq. }
    rewrite <- Hpm in Hb1, Hp1.
    assert (Hl1 : Channel.local c1 = Channel.local c) by now rewrite Hc1.
    assert (Hr1 : Channel.remote c1
                  = RwControlRemote.processMessages (Channel.remote c))
      by now rewrite Hc1.
    split; [exact Hl1|]. split; [now rewrite Hr1|]. split; [now rewrite Hr1|].
    subst c2. unfold Channel.complete, Channel.callback.
    cbn [Channel.local Channel.remote Channel.handler].
    pose proof (handler_spec Channel.updated
                  (RwControlRemote.call (Channel.fired Channel.updated)
                     (Channel.remote c1)) (Channel.local c1))
      as (_ & _ & Hb2 & _).
    cbn [Channel.handler] in Hb2.
    unfold RwControlRemote.worker_updated in *.
    change (RwControlRemote.pending_status
              (RwControlRemote.call (Channel.fired Channel.updated)
                 (Channel.remote c1)))
      with (RwControlRemote.pending_status (Channel.remote c1)) in *.
    rewrite Hr1, Hp1 in *. cbn [fst snd Channel.local Channel.remote] in *.
    split; [now rewrite <- Hl1|].
    rewrite Hb2. cbn. apply andb_false_r.
  - intros k r l. now pose proof (handler_spec k r l) as (_ & _ & _ & _ & Hp & _).
  - intros r l status.
    pose proof (handler_posts Channel.started r l) as H1.
    pose proof (handler_posts Channel.stopped r l) as H2.
    pose proof (handler_posts Channel.finished r l) as H3.
    pose proof (handler_posts Channel.error r l) as H4.
    now repeat split.
  - intros r msg. now pose proof (remote_postMessage_spec r msg) as (_ & _ & Hp & _).
  - intros r. unfold RwControlRemote.processMessages.
    now rewrite processMessages_loop_pending.
  - intros k r l r1 l1.
    pose proof (handler_spec k r l) as (_ & Hw & _ & _ & Hp & _).
    pose proof (handler_posts Channel.updated r1 l1) as Hu.
    cbn zeta in Hw, Hp. fold r1 in Hw, Hp. cbn [Channel.handler] in Hu.
    rewrite Hu, Hp, Hw. now destruct k.
  - intros e c c' Hstep. destruct e; cbn in Hstep;
      try (injection Hstep as <-); try reflexivity.
    + cbn. now pose proof (remote_postMessage_spec (Channel.remote c) msg)
        as (_ & _ & Hp & _).
    + unfold Channel.remoteWake.
      destruct (RwControlRemote.timer (Channel.remote c)); [|reflexivity].
      cbn [Channel.remote]. unfold RwControlRemote.processMessages.
      now rewrite processMessages_loop_pending.
    + unfold Channel.complete, Channel.callback.
      cbn [Channel.local Channel.remote].
      pose proof (handler_spec k
                    (RwControlRemote.call (Channel.fired k) (Channel.remote c))
                    (Channel.local c)) as (_ & _ & _ & _ & Hp & _).
      destruct (Channel.handler k _ _) as [r' l'].
      cbn [fst snd Channel.remote] in *. rewrite Hp. now destruct k.
    + destruct (fst (RwControlLocal.processMessages obs (Channel.local c)));
        [|discriminate].
      now injection Hstep as <-.
    + discriminate.
Qed.

(** Claim C6.  When a frame of kind K is pushed with
    [RwControlLocal::postMessage] and the inbox already holds
    [QUEUE_FRAME_MAX] = 10 or more frames of kind K, the oldest frame of
    kind K is removed, nothing else is, and the new frame is appended;
    frames of the other kind stay as they are.  Below the bound, and for a
    message that is not a frame, the message is appended and nothing is
    removed.  Hence in every state the pair can reach the inbox holds at
    most 10 frames of either kind. *)
Theorem frame_retention_is_bounded_per_kind {M : MediaTypes} :
  (forall (l : RwControlLocal.t) (f : RwControlFrame),
      let K := isFrameOfType (type f) in
      let q := RwControlLocal.in_ l in
      let q' :=
        RwControlLocal.in_
          (RwControlLocal.postMessage l (RwControlFrameMessage f)) in
      (QUEUE_FRAME_MAX <= count (filter K q) ->
         exists pre oldest post,
           q = pre ++ oldest :: post /\ K oldest = true
           /\ filter K pre = []
           /\ q' = pre ++ post ++ [RwControlFrameMessage f])
      /\ (count (filter K q) < QUEUE_FRAME_MAX ->
            q' = q ++ [RwControlFrameMessage f])
      /\ (forall other, other <> type f ->
            filter (isFrameOfType other) q' = filter (isFrameOfType other) q))
  /\ (forall (l : RwControlLocal.t) (msg : RwControlMessage),
        isFrame msg = false ->
        RwControlLocal.in_ (RwControlLocal.postMessage l msg)
        = RwControlLocal.in_ l ++ [msg])
  /\ (forall (l : RwControlLocal.t) (msg : RwControlMessage) (ty : FrameType),
        (forall ty', count (filter (isFrameOfType ty') (RwControlLocal.in_ l))
                     <= QUEUE_FRAME_MAX) ->
        count (filter (isFrameOfType ty)
                 (RwControlLocal.in_ (RwControlLocal.postMessage l msg)))
        <= QUEUE_FRAME_MAX)
  /\ (forall (c : Channel.t) (ty : FrameType),
        Channel.reachable c ->
        count (filter (isFrameOfType ty)
                 (RwControlLocal.in_ (Channel.local c)))
        <= QUEUE_FRAME_MAX).
Proof.
  split; [|split; [|split]].
  - intros l f K q q'. split; [|split].
    + intros Hfull. apply (postMessage_frame_full l f Hfull).
    + intros Hroom. apply (postMessage_frame_room l f Hroom).
    + intros other Hother. subst q'.
      assert (Hnot : isFrameOfType other (RwControlFrameMessage f) = false).
      { cbn. destruct (type f), other; try reflexivity; congruence. }
      destruct (Z.lt_ge_cases (count (filter K q)) QUEUE_FRAME_MAX)
        as [Hroom|Hfull].
      * rewrite (postMessage_frame_room l f Hroom), filter_app. cbn [filter].
        rewrite Hnot. apply app_nil_r.
      * destruct (postMessage_frame_full l f Hfull)
          as (pre & x & post & Hq & Hx & _ & ->).
        subst q. rewrite Hq, !filter_app. cbn [filter]. rewrite Hnot.
        assert (Hx' : isFrameOfType other x = false).
        { destruct x; try reflexivity. subst K. cbn in *.
          destruct (type f), (type frame), other;
            try reflexivity; try discriminate; congruence. }
        rewrite Hx'. now rewrite app_nil_r.
  - intros l msg. apply postMessage_other.
  - intros l msg ty Hb. now apply postMessage_withinBound.
  - intros c ty Hreach. now apply reachable_withinBound.
Qed.

(** ** The model run on concrete inputs *)

Section Runs.
Local Existing Instance sampleTypes.

Example queuedFrameInfo_counts_and_locates :
  queuedFrameInfo
    [sampleOutput 2; samplePreview 1; RwControlStopMessage; samplePreview 3]
    Preview (-1)
  = (2, 1).
Proof. reflexivity. Qed.

Example queuedFrameInfo_leaves_firstPos :
  queuedFrameInfo [sampleOutput 2; RwControlStopMessage] Preview (-1) = (0, -1).
Proof. reflexivity. Qed.

Example getLatestFrameAndRemoveOthers_run :
  getLatestFrameAndRemoveOthers
    [samplePreview 1; sampleOutput 2; RwControlStopMessage; samplePreview 3;
     samplePreview 4]
    Preview
  = (Some (samplePreview 4),
     [sampleOutput 2; RwControlStopMessage],
     [samplePreview 1; samplePreview 3]).
Proof. reflexivity. Qed.

(** Eleven preview frames around one output frame: the eleventh push evicts
    preview frame 1 and leaves the output frame where it was. *)
Example eviction_spares_the_other_kind :
  RwControlLocal.in_
    (fold_left RwControlLocal.postMessage
       (samplePreview 1 :: sampleOutput 100
        :: map samplePreview (seq 2 10))
       RwControlLocal.new)
  = sampleOutput 100 :: map samplePreview (seq 2 10).
Proof. reflexivity. Qed.

(** Fifteen pushes leave the ten newest preview frames queued, and the
    drain makes one callback. *)
Example fifteen_previews_run :
  let l :=
    fold_left RwControlLocal.postMessage (map samplePreview (seq 1 15))
      RwControlLocal.new in
  RwControlLocal.in_ l = map samplePreview (seq 6 10)
  /\ RwControlLocal.emitted
       (snd (RwControlLocal.processMessages (fun _ => true) l))
     = [RwControlLocal.previewFrame 15%nat].
Proof. split; reflexivity. Qed.

(** An observer that destroys the object in the preview callback: one
    callback is made, the object is gone, the whole batch is freed. *)
Example destruction_in_preview_callback :
  let batch :=
    [RwControlStatusMessage (statusFromWorker sampleWorker);
     samplePreview 1; sampleOutput 2; samplePreview 3] in
  RwControlLocal.processMessages (fun _ => false)
    {| RwControlLocal.in_ := batch; RwControlLocal.wake_pending := true |}
  = (None,
     {| RwControlLocal.emitted := [RwControlLocal.previewFrame 3%nat];
        RwControlLocal.freed :=
          [samplePreview 1; samplePreview 3;
           RwControlStatusMessage (statusFromWorker sampleWorker);
           sampleOutput 2] |}).
Proof. reflexivity. Qed.

(** Start and Stop issued back to back on the sample data: the worker is
    configured and started, the stop goes out after [started], and the
    front inbox ends up with the two statuses. *)
Example start_then_stop_run :
  option_map
    (fun c =>
       (map
          (fun msg =>
             match msg with
             | RwControlStatusMessage s =>
                 Some (RwControlStatus.localAudioParams s,
                       RwControlStatus.stopped s)
             | _ => None
             end)
          (RwControlLocal.in_ (Channel.local c)),
        RtpWorker.trace (RwControlRemote.worker (Channel.remote c)),
        RwControlRemote.blocking (Channel.remote c)))
    (Channel.run
       [Channel.Command (RwControlStartMessage sampleDevices sampleCodecs);
        Channel.Command RwControlStopMessage;
        Channel.RemoteWake;
        Channel.Completes Channel.started;
        Channel.RemoteWake;
        Channel.Completes Channel.stopped]
       (Channel.new sampleWorker))
  = Some
      ([Some ([7%nat], false); Some ([7%nat], true)],
       [RtpWorker.setOutputVolume 100; RtpWorker.setInputVolume 100;
        RtpWorker.start; RtpWorker.cb_started;
        RtpWorker.stop; RtpWorker.cb_stopped],
       true).
Proof. reflexivity. Qed.

(** Fifteen preview frames numbered 1 to 15, pushed into a fresh front
    inbox and drained by an observer that leaves the object alone. *)
Lemma fifteen_previews_witness :
  length [1; 2; 3; 4; 5; 6; 7; 8; 9; 10; 11; 12; 13; 14]%nat = 14%nat
  /\ exists rest,
       RwControlLocal.emitted
         (snd (RwControlLocal.processMessages (fun _ => true)
            (fold_left RwControlLocal.postMessage
               (map samplePreview
                  ([1; 2; 3; 4; 5; 6; 7; 8; 9; 10; 11; 12; 13; 14] ++ [15])%nat)
               RwControlLocal.new)))
       = RwControlLocal.previewFrame 15%nat :: rest
       /\ forall img, ~ In (RwControlLocal.previewFrame img) rest.
Proof.
  split; [reflexivity|].
  apply (@fifteen_previews_deliver_the_last sampleTypes (fun _ => true)
           RwControlLocal.new
           [1; 2; 3; 4; 5; 6; 7; 8; 9; 10; 11; 12; 13; 14]%nat 15%nat).
  reflexivity.
Defined.

Lemma started_reopens_gate_witness :
  RwControlRemote.blocking blockedOnStart = true
  /\ RwControlRemote.blocking
       (fst (RwControlRemote.worker_started blockedOnStart RwControlLocal.new))
     = false
  /\ RwControlRemote.timer
       (fst (RwControlRemote.worker_started blockedOnStart RwControlLocal.new))
     = true.
Proof.
  split; [reflexivity|].
  exact (proj1 (proj2 (@completion_reopens_gate_for_started_and_updated
                         sampleTypes Channel.started blockedOnStart
                         RwControlLocal.new eq_refl))).
Defined.

(** Against claim C1: an UpdateDevices command followed by a Record
    command.  The drain applies the first, closes the gate and stops: the
    Record command stays queued and the worker is not told to record. *)
Lemma updateDevices_blocks_the_drain :
  let r :=
    RwControlRemote.postMessage
      (RwControlRemote.postMessage (RwControlRemote.new sampleWorker)
         (RwControlUpdateDevicesMessage sampleDevices))
      (RwControlRecordMessage sampleRecord) in
  let r' := RwControlRemote.processMessages r in
  fst (RwControlRemote.processMessage
         (RwControlUpdateDevicesMessage sampleDevices) r) = false
  /\ RwControlRemote.blocking r' = true
  /\ RwControlRemote.in_ r' = [RwControlRecordMessage sampleRecord]
  /\ RtpWorker.trace (RwControlRemote.worker r')
     = [RtpWorker.setOutputVolume 100; RtpWorker.setInputVolume 100;
        RtpWorker.update].
Proof. repeat split. Qed.

(** Against claim C2: Stop and then Transmit are issued, the drain
    dispatches the stop, the worker reports [stopped].  The gate stays
    closed, no drain is scheduled and Transmit stays queued; the same
    holds when the worker reports [finished] or [error] instead. *)
Lemma stopped_leaves_gate_closed :
  gateAfterStop Channel.stopped
  = Some (true, false, [RwControlTransmitMessage sampleTransmit])
  /\ gateAfterStop Channel.finished
     = Some (true, false, [RwControlTransmitMessage sampleTransmit])
  /\ gateAfterStop Channel.error
     = Some (true, false, [RwControlTransmitMessage sampleTransmit]).
Proof. repeat split. Qed.

(** Against claim C8: Stop is the only command ever issued; when the
    worker then reports [updated], a Status is posted. *)
Lemma stop_then_updated_posts_status :
  option_map
    (fun c => RwControlLocal.in_ (Channel.local c))
    (Channel.run
       [Channel.Command RwControlStopMessage;
        Channel.RemoteWake;
        Channel.Completes Channel.updated]
       (Channel.new sampleWorker))
  = Some [RwControlStatusMessage (statusFromWorker sampleWorker)].
Proof. reflexivity. Qed.
End Runs.


(** * More of the front side *)

Section FrontFacts.
Context {M : MediaTypes}.
Implicit Types (q lst pre post : list RwControlMessage) (ty : FrameType)
  (l : RwControlLocal.t).

Lemma queuedFrameInfo_loop_none q ty n cnt first firstPos :
  filter (isFrameOfType ty) q = [] ->
  snd (queuedFrameInfo_loop q ty n cnt first firstPos) = firstPos.
Proof.
  revert n. induction q as [|msg q IH]; intros n; cbn; [reflexivity|].
  destruct (isFrameOfType ty msg); [discriminate|]. apply IH.
Qed.

Lemma firstn_app_count pre post : firstn (Z.to_nat (count pre)) (pre ++ post) = pre.
Proof.
  unfold count. rewrite Nat2Z.id, firstn_app, Nat.sub_diag, firstn_all.
  cbn. apply app_nil_r.
Qed.

(** A frame of the other kind is appended, and no frame of kind [ty] goes. *)
Lemma postMessage_keeps_other_kind l (f : RwControlFrame) ty :
  type f <> ty ->
  filter (isFrameOfType ty)
    (RwControlLocal.in_ (RwControlLocal.postMessage l (RwControlFrameMessage f)))
  = filter (isFrameOfType ty) (RwControlLocal.in_ l).
Proof.
  intros Hty.
  assert (Hnot : isFrameOfType ty (RwControlFrameMessage f) = false).
  { cbn. destruct (type f), ty; try reflexivity; congruence. }
  destruct (Z.lt_ge_cases
              (count (filter (isFrameOfType (type f)) (RwControlLocal.in_ l)))
              QUEUE_FRAME_MAX) as [Hroom|Hfull].
  - rewrite (postMessage_frame_room l f Hroom), filter_app. cbn [filter].
    rewrite Hnot. apply app_nil_r.
  - destruct (postMessage_frame_full l f Hfull)
      as (pre & x & post & Hq & Hx & _ & ->).
    rewrite Hq, !filter_app. cbn [filter]. rewrite Hnot.
    assert (Hx' : isFrameOfType ty x = false).
    { destruct x; try reflexivity. cbn in *.
      destruct (type f), (type frame), ty;
        try reflexivity; try discriminate; congruence. }
    rewrite Hx'. now rewrite app_nil_r.
Qed.

Lemma lastN_all {A} (n : nat) (a : list A) :
  (length a <= n)%nat -> lastN n a = a.
Proof.
  intros H. unfold lastN. now replace (length a - n)%nat with 0%nat by lia.
Qed.

Lemma lastN_length {A} (n : nat) (a : list A) : (length (lastN n a) <= n)%nat.
Proof. unfold lastN. rewrite length_skipn. lia. Qed.

Lemma lastN_rev {A} (n : nat) (a : list A) :
  lastN n a = rev (firstn n (rev a)).
Proof. unfold lastN. now rewrite firstn_rev, rev_involutive. Qed.

Lemma lastN_app {A} (n : nat) (a b : list A) :
  lastN n (lastN n a ++ b) = lastN n (a ++ b).
Proof.
  rewrite (lastN_rev n (_ ++ b)), (lastN_rev n (a ++ b)), (lastN_rev n a).
  f_equal. rewrite !rev_app_distr, rev_involutive, !firstn_app.
  f_equal. rewrite firstn_firstn. f_equal. lia.
Qed.

(** One push, seen through the frames of one kind: the window slides. *)
Lemma postMessage_window l (msg : RwControlMessage) ty :
  withinBound (RwControlLocal.in_ l) ->
  filter (isFrameOfType ty)
    (RwControlLocal.in_ (RwControlLocal.postMessage l msg))
  = lastN (Z.to_nat QUEUE_FRAME_MAX)
      (filter (isFrameOfType ty) (RwControlLocal.in_ l ++ [msg])).
Proof.
  intros Hb. pose proof (Hb ty) as Hty. unfold count, QUEUE_FRAME_MAX in Hty.
  rewrite filter_app.
  destruct (isFrameOfType ty msg) eqn:Emsg.
  - destruct msg as [| | | | | | | |f]; try discriminate Emsg.
    assert (Ef : type f = ty).
    { cbn in Emsg. destruct (type f), ty; try reflexivity; discriminate. }
    subst ty. cbn [filter]. rewrite Emsg.
    destruct (Z.lt_ge_cases
                (count (filter (isFrameOfType (type f)) (RwControlLocal.in_ l)))
                QUEUE_FRAME_MAX) as [Hroom|Hfull].
    + rewrite (postMessage_frame_room l f Hroom), filter_app. cbn [filter].
      rewrite Emsg. symmetry. apply lastN_all.
      unfold count, QUEUE_FRAME_MAX in Hroom. rewrite length_app. cbn. lia.
    + destruct (postMessage_frame_full l f Hfull)
        as (pre & x & post & Hq & Hx & Hpre & ->).
      unfold count, QUEUE_FRAME_MAX in Hfull.
      rewrite Hq in Hty, Hfull |- *.
      rewrite !filter_app in *. cbn [filter] in *. rewrite Hx, Hpre, Emsg in *.
      cbn [app] in *. unfold lastN. cbn [length] in *.
      rewrite length_app in *. cbn [length] in *.
      replace (S (length (filter (isFrameOfType (type f)) post) + 1)
               - Z.to_nat QUEUE_FRAME_MAX)%nat with 1%nat
        by (unfold QUEUE_FRAME_MAX; lia).
      reflexivity.
  - cbn [filter]. rewrite Emsg, app_nil_r.
    rewrite lastN_all by (cbn; lia).
    destruct msg as [| | | | | | | |f]; try reflexivity;
      try (rewrite postMessage_other by reflexivity;
           rewrite filter_app; cbn; apply app_nil_r).
    apply postMessage_keeps_other_kind.
    intros E. subst ty. cbn in Emsg. now destruct (type f).
Qed.

(** One push, seen through everything that is not a frame. *)
Lemma postMessage_keeps_non_frames l (msg : RwControlMessage) :
  filter (fun m => negb (isFrame m))
    (RwControlLocal.in_ (RwControlLocal.postMessage l msg))
  = filter (fun m => negb (isFrame m)) (RwControlLocal.in_ l ++ [msg]).
Proof.
  destruct (isFrame msg) eqn:Emsg.
  - destruct msg as [| | | | | | | |f]; try discriminate Emsg.
    rewrite filter_app. cbn [filter]. rewrite Emsg. cbn [negb].
    rewrite app_nil_r.
    destruct (Z.lt_ge_cases
                (count (filter (isFrameOfType (type f)) (RwControlLocal.in_ l)))
                QUEUE_FRAME_MAX) as [Hroom|Hfull].
    + rewrite (postMessage_frame_room l f Hroom), filter_app. cbn [filter].
      rewrite Emsg. apply app_nil_r.
    + destruct (postMessage_frame_full l f Hfull)
        as (pre & x & post & Hq & Hx & _ & ->).
      rewrite Hq, !filter_app. cbn [filter]. rewrite Emsg. cbn [negb].
      assert (Hx' : isFrame x = true).
      { destruct x; try discriminate Hx. unfold isFrame. cbn.
        now destruct (type frame). }
      rewrite Hx'. cbn [negb]. now rewrite app_nil_r.
  - now rewrite postMessage_other.
Qed.
(** Many pushes, seen through the frames of one kind. *)
Lemma postMessages_window l (msgs : list RwControlMessage) ty :
  withinBound (RwControlLocal.in_ l) ->
  filter (isFrameOfType ty)
    (RwControlLocal.in_ (fold_left RwControlLocal.postMessage msgs l))
  = lastN (Z.to_nat QUEUE_FRAME_MAX)
      (filter (isFrameOfType ty) (RwControlLocal.in_ l ++ msgs)).
Proof.
  revert l. induction msgs as [|msg msgs IH]; intros l Hb.
  - cbn. rewrite app_nil_r. symmetry. apply lastN_all.
    specialize (Hb ty). unfold count, QUEUE_FRAME_MAX in *. lia.
  - cbn [fold_left]. rewrite IH by now apply postMessage_withinBound.
    rewrite filter_app, (postMessage_window l msg ty Hb), lastN_app.
    now rewrite <- filter_app, <- app_assoc.
Qed.

(** Many pushes, seen through everything that is not a frame. *)
Lemma postMessages_keep_non_frames l (msgs : list RwControlMessage) :
  filter (fun m => negb (isFrame m))
    (RwControlLocal.in_ (fold_left RwControlLocal.postMessage msgs l))
  = filter (fun m => negb (isFrame m)) (RwControlLocal.in_ l ++ msgs).
Proof.
  revert l. induction msgs as [|msg msgs IH]; intros l.
  - cbn. now rewrite app_nil_r.
  - cbn [fold_left]. rewrite IH, filter_app, postMessage_keeps_non_frames.
    now rewrite <- filter_app, <- app_assoc.
Qed.

Lemma lastOccurrence_of_filter (sel : RwControlMessage -> bool) q :
  lastOccurrence sel (filter sel q) = lastOccurrence sel q.
Proof. now apply lastOccurrence_filter. Qed.

Lemma lastOccurrence_lastN (sel : RwControlMessage -> bool) (n : nat) q :
  (0 < n)%nat -> forallb sel q = true ->
  lastOccurrence sel (lastN n q) = lastOccurrence sel q.
Proof.
  intros Hn Hall. unfold lastN.
  rewrite <- (firstn_skipn (length q - n) q) at 3.
  rewrite lastOccurrence_app.
  destruct (skipn (length q - n) q) as [|x tl] eqn:E.
  - apply (f_equal (@length _)) in E. rewrite length_skipn in E.
    cbn [length] in E.
    assert (q = []) as ->.
    { destruct q; [reflexivity|]. cbn [length] in E. lia. }
    reflexivity.
  - destruct (lastOccurrence sel (x :: tl)) eqn:El; [reflexivity|].
    apply lastOccurrence_none in El.
    assert (Hx : sel x = true).
    { rewrite forallb_forall in Hall. apply Hall.
      rewrite <- (firstn_skipn (length q - n) q), E.
      apply in_or_app. right. now left. }
    cbn in El. rewrite Hx in El. discriminate.
Qed.

Lemma forallb_filter (sel : RwControlMessage -> bool) q :
  forallb sel (filter sel q) = true.
Proof.
  induction q as [|x q IH]; [reflexivity|]. cbn.
  destruct (sel x) eqn:E; [cbn; now rewrite E|exact IH].
Qed.

(** After many pushes the newest frame of a kind is the newest frame of that
    kind ever queued or pushed. *)
Lemma postMessages_newest l (msgs : list RwControlMessage) ty :
  withinBound (RwControlLocal.in_ l) ->
  lastOccurrence (isFrameOfType ty)
    (RwControlLocal.in_ (fold_left RwControlLocal.postMessage msgs l))
  = lastOccurrence (isFrameOfType ty) (RwControlLocal.in_ l ++ msgs).
Proof.
  intros Hb.
  rewrite <- lastOccurrence_of_filter, (postMessages_window l msgs ty Hb).
  rewrite lastOccurrence_lastN.
  - apply lastOccurrence_of_filter.
  - unfold QUEUE_FRAME_MAX. lia.
  - apply forallb_filter.
Qed.

(** A kind of message that is not a frame is queued exactly as pushed. *)
Lemma postMessages_keep_kind (sel : RwControlMessage -> bool) l
    (msgs : list RwControlMessage) :
  (forall m, sel m = true -> isFrame m = false) ->
  filter sel (RwControlLocal.in_ (fold_left RwControlLocal.postMessage msgs l))
  = filter sel (RwControlLocal.in_ l ++ msgs).
Proof.
  intros Hsel.
  rewrite <- (filter_filter_implied sel (fun m => negb (isFrame m))
                (RwControlLocal.in_ _)),
          <- (filter_filter_implied sel (fun m => negb (isFrame m))
                (RwControlLocal.in_ l ++ msgs)).
  - now rewrite postMessages_keep_non_frames.
  - intros x Hx. now rewrite (Hsel x Hx).
  - intros x Hx. now rewrite (Hsel x Hx).
Qed.
End FrontFacts.

Section FrontDrainFacts.
Context {M : MediaTypes}.
Implicit Types (batch : list RwControlMessage) (obs : RwControlLocal.observer).

Lemma deliver_nothing obs todo :
  fst (deliver obs [] todo) = [] <-> todo = [].
Proof.
  split; [|intros ->; reflexivity].
  destruct todo as [|sg todo]; [reflexivity|]. cbn.
  destruct (obs [sg]); [|discriminate].
  destruct (deliver_prefix obs [sg] todo) as (k & -> & _). discriminate.
Qed.

Lemma deliver_length obs done todo :
  (length (fst (deliver obs done todo)) <= length done + length todo)%nat.
Proof.
  destruct (deliver_prefix obs done todo) as (k & -> & _).
  rewrite length_app, length_firstn. lia.
Qed.

Lemma signal_of_last (sel : RwControlMessage -> bool)
    (sig : RwControlMessage -> list RwControlLocal.signal) batch :
  (forall msg, sel msg = true -> sig msg <> []) ->
  match lastOccurrence sel batch with
  | Some msg => sig msg
  | None => []
  end = [] <-> filter sel batch = [].
Proof.
  intros Hsig. destruct (lastOccurrence sel batch) as [msg|] eqn:E.
  - split.
    + intros H. apply lastOccurrence_accepts in E. now apply Hsig in E.
    + intros H. apply lastOccurrence_none in H. congruence.
  - split; [intros _; now apply lastOccurrence_none | reflexivity].
Qed.

Lemma previewSignal_nil batch :
  previewSignal batch = [] <-> filter (isFrameOfType Preview) batch = [].
Proof.
  rewrite <- (signal_of_last (isFrameOfType Preview)
                (fun msg => match msg with
                            | RwControlFrameMessage f =>
                                [RwControlLocal.previewFrame (image f)]
                            | _ => []
                            end)).
  - unfold previewSignal.
    now destruct (lastOccurrence (isFrameOfType Preview) batch) as [[]|].
  - intros [] H; try discriminate H. discriminate.
Qed.

Lemma outputSignal_nil batch :
  outputSignal batch = [] <-> filter (isFrameOfType Output) batch = [].
Proof.
  rewrite <- (signal_of_last (isFrameOfType Output)
                (fun msg => match msg with
                            | RwControlFrameMessage f =>
                                [RwControlLocal.outputFrame (image f)]
                            | _ => []
                            end)).
  - unfold outputSignal.
    now destruct (lastOccurrence (isFrameOfType Output) batch) as [[]|].
  - intros [] H; try discriminate H. discriminate.
Qed.

Lemma intensitySignal_nil batch :
  intensitySignal batch = [] <-> filter isAudioIntensity batch = [].
Proof.
  rewrite <- (signal_of_last isAudioIntensity
                (fun msg => match msg with
                            | RwControlAudioIntensityMessage a =>
                                [RwControlLocal.audioIntensityChanged (value a)]
                            | _ => []
                            end)).
  - unfold intensitySignal.
    now destruct (lastOccurrence isAudioIntensity batch) as [[]|].
  - intros [] H; try discriminate H. discriminate.
Qed.

Lemma statusSignals_length batch :
  length (statusSignals batch) = length (filter isStatus batch).
Proof.
  unfold statusSignals. induction batch as [|msg batch IH]; [reflexivity|].
  cbn [flat_map filter]. rewrite length_app, IH. now destruct msg.
Qed.

Lemma expected_nil batch :
  expected batch = [] <->
  forallb (fun msg => negb (deliverable msg)) batch = true.
Proof.
  unfold expected. split.
  - intros H.
    apply app_eq_nil in H as [Hp H]. apply app_eq_nil in H as [Ho H].
    apply app_eq_nil in H as [Ha Hs].
    apply previewSignal_nil in Hp. apply outputSignal_nil in Ho.
    apply intensitySignal_nil in Ha.
    apply (f_equal (@length _)) in Hs. rewrite statusSignals_length in Hs.
    induction batch as [|msg batch IH]; [reflexivity|].
    cbn in Hp, Ho, Ha, Hs |- *. unfold deliverable, coalesced.
    destruct (isFrameOfType Preview msg); [discriminate|].
    destruct (isFrameOfType Output msg); [discriminate|].
    destruct (isAudioIntensity msg); [discriminate|].
    destruct (isStatus msg); [discriminate|]. cbn. auto.
  - intros H.
    assert (Hall : filter (isFrameOfType Preview) batch = []
                   /\ filter (isFrameOfType Output) batch = []
                   /\ filter isAudioIntensity batch = []
                   /\ filter isStatus batch = []).
    { induction batch as [|msg batch IH]; [auto|].
      cbn in H |- *. apply andb_prop in H as [Hm H].
      unfold deliverable, coalesced in Hm.
      destruct (isFrameOfType Preview msg), (isFrameOfType Output msg),
        (isAudioIntensity msg), (isStatus msg); try discriminate Hm.
      now apply IH. }
    destruct Hall as (Hp & Ho & Ha & Hs).
    apply previewSignal_nil in Hp. apply outputSignal_nil in Ho.
    apply intensitySignal_nil in Ha. rewrite Hp, Ho, Ha. cbn.
    pose proof (statusSignals_length batch) as Hl. rewrite Hs in Hl.
    now destruct (statusSignals batch).
Qed.
End FrontDrainFacts.

(** Property X1.  [queuedFrameInfo] returns the number of frames of the given
    kind in the list.  When there is none it leaves [*firstPos] as it found
    it; otherwise [*firstPos] is a valid position, holds a frame of that
    kind, and no frame of that kind comes before it. *)
Theorem queuedFrameInfo_counts_and_finds_oldest {M : MediaTypes}
    (lst : list RwControlMessage) (ty : FrameType) (firstPos : Z) :
  let cnt := fst (queuedFrameInfo lst ty firstPos) in
  let pos := snd (queuedFrameInfo lst ty firstPos) in
  cnt = count (filter (isFrameOfType ty) lst)
  /\ (cnt = 0 -> pos = firstPos)
  /\ (0 < cnt ->
        0 <= pos < count lst
        /\ (exists msg,
              at_ lst pos = Some msg /\ isFrameOfType ty msg = true)
        /\ filter (isFrameOfType ty) (firstn (Z.to_nat pos) lst) = []).
Proof.
  intros cnt pos. subst cnt pos. unfold queuedFrameInfo.
  rewrite queuedFrameInfo_loop_count. cbn [Z.add].
  split; [reflexivity|]. split.
  - intros H. apply queuedFrameInfo_loop_none.
    destruct (filter (isFrameOfType ty) lst); [reflexivity|].
    unfold count in H. cbn in H. lia.
  - intros H.
    destruct (first_occurrence_split (isFrameOfType ty) lst)
      as (pre & x & post & -> & Hx & Hpre).
    { intros E. rewrite E in H. cbn in H. lia. }
    rewrite (queuedFrameInfo_loop_first pre x post ty 0 0 firstPos Hpre Hx).
    cbn [Z.add]. split; [|split].
    + rewrite count_app. unfold count. cbn [length]. lia.
    + exists x. rewrite at_app_count. auto.
    + now rewrite firstn_app_count.
Qed.

(** Property X2.  After [getLatestFrameAndRemoveOthers] no frame of the kind
    asked for is left in the list, so scanning again finds nothing and
    frees nothing.  Every message of the list is returned, freed or left,
    and what a scan for the other kind or for audio intensities finds is the
    same before and after. *)
Theorem frame_scan_is_exhaustive_and_independent {M : MediaTypes}
    (lst : list RwControlMessage) (ty : FrameType) :
  let kept := fst (fst (getLatestFrameAndRemoveOthers lst ty)) in
  let rest := snd (fst (getLatestFrameAndRemoveOthers lst ty)) in
  let gone := snd (getLatestFrameAndRemoveOthers lst ty) in
  filter (isFrameOfType ty) rest = []
  /\ getLatestFrameAndRemoveOthers rest ty = (None, rest, [])
  /\ Permutation (gone ++ optionToList kept ++ rest) lst
  /\ (forall ty', ty' <> ty ->
        fst (fst (getLatestFrameAndRemoveOthers rest ty'))
        = fst (fst (getLatestFrameAndRemoveOthers lst ty')))
  /\ fst (fst (getLatestAudioIntensityAndRemoveOthers rest))
     = fst (fst (getLatestAudioIntensityAndRemoveOthers lst)).
Proof.
  intros kept rest gone. subst kept rest gone.
  rewrite !getLatestFrameAndRemoveOthers_spec. cbn [fst snd].
  assert (Hnone : filter (isFrameOfType ty) (others (isFrameOfType ty) lst) = []).
  { unfold others. rewrite filter_filter_comm.
    induction lst as [|msg lst IH]; [reflexivity|]. cbn.
    now destruct (isFrameOfType ty msg). }
  split; [exact Hnone|]. split; [|split; [|split]].
  - unfold earlierOccurrences. rewrite Hnone.
    apply lastOccurrence_none in Hnone. rewrite Hnone.
    cbn [removelast]. f_equal. f_equal. unfold others.
    rewrite filter_filter_comm. apply filter_ext. intros x.
    now destruct (isFrameOfType ty x).
  - apply Permutation_block.
  - intros ty' Hty. rewrite ?getLatestFrameAndRemoveOthers_spec. cbn [fst].
    unfold others. apply lastOccurrence_filter.
    intros [] H; try discriminate H. cbn in *.
    destruct (type frame), ty, ty'; try reflexivity; try discriminate; congruence.
  - rewrite !getLatestAudioIntensityAndRemoveOthers_spec. cbn [fst].
    unfold others. apply lastOccurrence_filter.
    intros [] H; try discriminate H. reflexivity.
Qed.

(** Property X3.  Starting from an inbox within the retention bound, after
    any sequence of [RwControlLocal::postMessage] the frames of a kind that
    are queued are the newest [QUEUE_FRAME_MAX] frames of that kind among
    those that were queued and those pushed, in arrival order. *)
Theorem newest_frames_of_a_kind_are_kept {M : MediaTypes}
    (l : RwControlLocal.t) (msgs : list RwControlMessage) (ty : FrameType) :
  withinBound (RwControlLocal.in_ l) ->
  filter (isFrameOfType ty)
    (RwControlLocal.in_ (fold_left RwControlLocal.postMessage msgs l))
  = lastN (Z.to_nat QUEUE_FRAME_MAX)
      (filter (isFrameOfType ty) (RwControlLocal.in_ l ++ msgs)).
Proof. apply postMessages_window. Qed.

(** Property X4.  [RwControlLocal::postMessage] never removes or reorders a
    message that is not a frame: after any sequence of pushes the statuses
    and audio intensities in the inbox are those that were queued followed by
    those pushed, in arrival order. *)
Theorem pushes_never_drop_what_is_not_a_frame {M : MediaTypes}
    (l : RwControlLocal.t) (msgs : list RwControlMessage) :
  filter (fun msg => negb (isFrame msg))
    (RwControlLocal.in_ (fold_left RwControlLocal.postMessage msgs l))
  = filter (fun msg => negb (isFrame msg)) (RwControlLocal.in_ l ++ msgs).
Proof. apply postMessages_keep_non_frames. Qed.

(** Property X5.  A drain of the front inbox makes no callback exactly when
    the batch holds no frame, no audio intensity and no status, whatever the
    observer does; and it never makes more than three callbacks plus one
    per status in the batch. *)
Theorem drain_is_silent_without_deliverables {M : MediaTypes}
    (obs : RwControlLocal.observer) (l : RwControlLocal.t) :
  let batch := RwControlLocal.in_ l in
  let delivered :=
    RwControlLocal.emitted (snd (RwControlLocal.processMessages obs l)) in
  (delivered = [] <->
   forallb (fun msg => negb (deliverable msg)) batch = true)
  /\ (length delivered <= 3 + length (filter isStatus batch))%nat.
Proof.
  intros batch delivered. subst delivered.
  destruct (local_processMessages_spec obs l) as (gone & -> & _).
  cbn [snd RwControlLocal.emitted]. fold batch. split.
  - rewrite deliver_nothing. apply expected_nil.
  - pose proof (deliver_length obs [] (expected batch)) as H.
    cbn [length] in H. unfold expected in H.
    rewrite !length_app, statusSignals_length in H.
    assert (length (previewSignal batch) <= 1
            /\ length (outputSignal batch) <= 1
            /\ length (intensitySignal batch) <= 1)%nat as (Hp & Ho & Ha).
    { unfold previewSignal, outputSignal, intensitySignal.
      repeat split;
        match goal with
        | |- context [lastOccurrence ?s batch] =>
            destruct (lastOccurrence s batch) as [[]|]; cbn; lia
        end. }
    unfold expected. lia.
Qed.


(** * More of the back side *)

Section BackFacts.
Context {M : MediaTypes}.
Import RwControlRemote.
Implicit Types (r : RwControlRemote.t) (msg : RwControlMessage)
  (q msgs : list RwControlMessage).

Lemma processMessage_trace msg r :
  RtpWorker.trace (worker (snd (processMessage msg r)))
  = RtpWorker.trace (worker r) ++ callsOf msg.
Proof.
  destruct msg; cbn; rewrite <- ?app_assoc; try reflexivity;
    try (now rewrite app_nil_r).
  - destruct (useAudio transmit), (useVideo transmit); cbn;
      now rewrite <- app_assoc.
  - now destruct (enabled record).
Qed.

Lemma applied_rest q : applied q ++ skipn (length (applied q)) q = q.
Proof.
  induction q as [|msg q IH]; [reflexivity|]. cbn [applied].
  destruct (blocks msg); cbn; [reflexivity | now rewrite IH].
Qed.

Lemma applied_all q : existsb blocks q = false -> applied q = q.
Proof.
  induction q as [|msg q IH]; [reflexivity|]. cbn.
  destruct (blocks msg); [discriminate|]. intros H. now rewrite IH.
Qed.

(** The loop of [processMessages], whole. *)
Lemma processMessages_loop_spec q r :
  let r' := processMessages_loop q r in
  RtpWorker.trace (worker r')
  = RtpWorker.trace (worker r) ++ flat_map callsOf (applied q)
  /\ in_ r' = skipn (length (applied q)) q
  /\ blocking r' = existsb blocks q || blocking r
  /\ timer r' = negb (existsb blocks q) && timer r.
Proof.
  revert r. induction q as [|msg q IH]; intros r.
  - cbn. now rewrite app_nil_r.
  - cbn [processMessages_loop applied existsb flat_map].
    pose proof (processMessage_returns msg (set_in q r)) as Hret.
    pose proof (processMessage_frame msg (set_in q r)) as (Hi & Hb & Ht & _).
    pose proof (processMessage_trace msg (set_in q r)) as Htr.
    destruct (processMessage msg (set_in q r)) as [ret r1].
    cbn [fst snd] in *. cbn in Hi, Hb, Ht, Htr. subst ret.
    destruct (blocks msg); cbn [negb orb andb].
    + cbn [flat_map length skipn]. rewrite app_nil_r.
      destruct (timer r1) eqn:E; cbn; rewrite ?E; auto.
    + destruct (IH r1) as (Htr' & Hi' & Hb' & Ht').
      cbn zeta in *. rewrite Htr', Hi', Hb', Ht', Htr, Hb, Ht.
      rewrite <- app_assoc. cbn [length skipn]. auto.
Qed.

Lemma postMessages_spec msgs r :
  let r' := fold_left postMessage msgs r in
  in_ r' = in_ r ++ msgs /\ blocking r' = blocking r
  /\ pending_status r' = pending_status r /\ worker r' = worker r
  /\ timer r' = timer r || (negb (blocking r) && negb (isEmpty msgs)).
Proof.
  revert r. induction msgs as [|msg msgs IH]; intros r.
  - cbn. rewrite app_nil_r, andb_false_r, orb_false_r. auto.
  - cbn [fold_left].
    destruct (IH (postMessage r msg)) as (Hi & Hb & Hp & Hw & Ht).
    destruct (remote_postMessage_spec r msg) as (Hi1 & Hb1 & Hp1 & Hw1 & Ht1).
    cbn zeta in *. rewrite Hi, Hb, Hp, Hw, Ht, Hi1, Hb1, Hp1, Hw1, Ht1.
    rewrite <- app_assoc. repeat split.
    destruct (timer r), (blocking r), msgs; reflexivity.
Qed.
End BackFacts.

(** Property X6.  [RwControlRemote::postMessage] only ever appends: after
    any sequence of posts the back inbox is what it was followed by the
    posted messages in order, the worker and the gate are untouched, and a
    drain gets scheduled only if the gate is open; while the gate is closed
    the messages queue up and no drain is scheduled. *)
Theorem back_posts_queue_in_order {M : MediaTypes}
    (r : RwControlRemote.t) (msgs : list RwControlMessage) :
  let r' := fold_left RwControlRemote.postMessage msgs r in
  RwControlRemote.in_ r' = RwControlRemote.in_ r ++ msgs
  /\ RwControlRemote.worker r' = RwControlRemote.worker r
  /\ RwControlRemote.blocking r' = RwControlRemote.blocking r
  /\ RwControlRemote.pending_status r' = RwControlRemote.pending_status r
  /\ RwControlRemote.timer r'
     = RwControlRemote.timer r
       || (negb (RwControlRemote.blocking r) && negb (isEmpty msgs)).
Proof.
  destruct (postMessages_spec msgs r) as (Hi & Hb & Hp & Hw & Ht). auto.
Qed.

(** Property X7.  One call of [RwControlRemote::processMessages] applies the
    queued messages to the worker in arrival order, up to and including the
    first of Start, Stop, UpdateDevices and UpdateCodecs, and makes no other
    call on the worker; the messages behind stay queued in their order, none
    is lost, and the drain leaves no timer set. *)
Theorem drain_applies_commands_in_arrival_order {M : MediaTypes}
    (r : RwControlRemote.t) :
  let q := RwControlRemote.in_ r in
  let r' := RwControlRemote.processMessages r in
  RtpWorker.trace (RwControlRemote.worker r')
  = RtpWorker.trace (RwControlRemote.worker r) ++ flat_map callsOf (applied q)
  /\ applied q ++ RwControlRemote.in_ r' = q
  /\ RwControlRemote.blocking r'
     = existsb blocks q || RwControlRemote.blocking r
  /\ RwControlRemote.timer r' = false.
Proof.
  intros q r'. subst q r'. unfold RwControlRemote.processMessages.
  destruct (processMessages_loop_spec
              (RwControlRemote.in_ (RwControlRemote.set_timer false r))
              (RwControlRemote.set_timer false r)) as (Htr & Hi & Hb & Ht).
  cbn zeta in *. cbn [RwControlRemote.in_ RwControlRemote.set_timer] in *.
  rewrite Htr, Hi, Hb, Ht. repeat split.
  - apply applied_rest.
  - apply andb_false_r.
Qed.

(** Property X8.  [applyCodecsToWorker] overwrites exactly the worker fields
    whose use-flag is set: with no flag set the worker is left as it is;
    applying the same codecs twice is the same as applying them once; and it
    commutes with [applyDevicesToWorker], the two writing disjoint fields.
    Field by field: each of the six codec fields of the worker becomes the
    codecs' value when its flag is set and keeps the worker's value when it
    is not, and every other field, the trace included, is the worker's. *)
Theorem applyCodecsToWorker_respects_use_flags {M : MediaTypes}
    (w : RtpWorker.t) (c : RwControlConfigCodecs.t)
    (d : RwControlConfigDevices) :
  (RwControlConfigCodecs.useLocalAudioParams c
   || RwControlConfigCodecs.useLocalVideoParams c
   || RwControlConfigCodecs.useLocalAudioPayloadInfo c
   || RwControlConfigCodecs.useLocalVideoPayloadInfo c
   || RwControlConfigCodecs.useRemoteAudioPayloadInfo c
   || RwControlConfigCodecs.useRemoteVideoPayloadInfo c = false ->
   applyCodecsToWorker w c = w)
  /\ applyCodecsToWorker (applyCodecsToWorker w c) c = applyCodecsToWorker w c
  /\ applyCodecsToWorker (applyDevicesToWorker w d) c
     = applyDevicesToWorker (applyCodecsToWorker w c) d
  /\ (let w' := applyCodecsToWorker w c in
     RtpWorker.localAudioParams w'
        = (if RwControlConfigCodecs.useLocalAudioParams c
           then RwControlConfigCodecs.localAudioParams c
           else RtpWorker.localAudioParams w)
     /\ RtpWorker.localVideoParams w'
        = (if RwControlConfigCodecs.useLocalVideoParams c
           then RwControlConfigCodecs.localVideoParams c
           else RtpWorker.localVideoParams w)
     /\ RtpWorker.localAudioPayloadInfo w'
        = (if RwControlConfigCodecs.useLocalAudioPayloadInfo c
           then RwControlConfigCodecs.localAudioPayloadInfo c
           else RtpWorker.localAudioPayloadInfo w)
     /\ RtpWorker.localVideoPayloadInfo w'
        = (if RwControlConfigCodecs.useLocalVideoPayloadInfo c
           then RwControlConfigCodecs.localVideoPayloadInfo c
           else RtpWorker.localVideoPayloadInfo w)
     /\ RtpWorker.remoteAudioPayloadInfo w'
        = (if RwControlConfigCodecs.useRemoteAudioPayloadInfo c
           then RwControlConfigCodecs.remoteAudioPayloadInfo c
           else RtpWorker.remoteAudioPayloadInfo w)
     /\ RtpWorker.remoteVideoPayloadInfo w'
        = (if RwControlConfigCodecs.useRemoteVideoPayloadInfo c
           then RwControlConfigCodecs.remoteVideoPayloadInfo c
           else RtpWorker.remoteVideoPayloadInfo w)
     /\ RtpWorker.aout w' = RtpWorker.aout w
     /\ RtpWorker.ain w' = RtpWorker.ain w
     /\ RtpWorker.vin w' = RtpWorker.vin w
     /\ RtpWorker.infile w' = RtpWorker.infile w
     /\ RtpWorker.indata w' = RtpWorker.indata w
     /\ RtpWorker.loopFile w' = RtpWorker.loopFile w
     /\ RtpWorker.canTransmitAudio w' = RtpWorker.canTransmitAudio w
     /\ RtpWorker.canTransmitVideo w' = RtpWorker.canTransmitVideo w
     /\ RtpWorker.error w' = RtpWorker.error w
     /\ RtpWorker.trace w' = RtpWorker.trace w).
Proof.
  split; [|split; [|split]]; [| | |cbn; repeat split; reflexivity].
  - intros H. unfold applyCodecsToWorker.
    destruct (RwControlConfigCodecs.useLocalAudioParams c); [discriminate|].
    destruct (RwControlConfigCodecs.useLocalVideoParams c); [discriminate|].
    destruct (RwControlConfigCodecs.useLocalAudioPayloadInfo c); [discriminate|].
    destruct (RwControlConfigCodecs.useLocalVideoPayloadInfo c); [discriminate|].
    destruct (RwControlConfigCodecs.useRemoteAudioPayloadInfo c); [discriminate|].
    destruct (RwControlConfigCodecs.useRemoteVideoPayloadInfo c); [discriminate|].
    now destruct w.
  - unfold applyCodecsToWorker. cbn.
    destruct (RwControlConfigCodecs.useLocalAudioParams c),
      (RwControlConfigCodecs.useLocalVideoParams c),
      (RwControlConfigCodecs.useLocalAudioPayloadInfo c),
      (RwControlConfigCodecs.useLocalVideoPayloadInfo c),
      (RwControlConfigCodecs.useRemoteAudioPayloadInfo c),
      (RwControlConfigCodecs.useRemoteVideoPayloadInfo c); reflexivity.
  - reflexivity.
Qed.

(** Property X9.  Of all the messages [RwControlRemote::processMessage] can
    be given, only Start and UpdateCodecs change what a Status built by
    [statusFromWorker] would report, and they change it to what
    [applyCodecsToWorker] made of the local parameters and payload lists;
    device settings, remote payload lists and the calls made on the worker
    never show in a Status. *)
Theorem only_codecs_change_the_status {M : MediaTypes}
    (msg : RwControlMessage) (r : RwControlRemote.t) :
  let w := RwControlRemote.worker r in
  let after :=
    statusFromWorker
      (RwControlRemote.worker (snd (RwControlRemote.processMessage msg r))) in
  let picked (c : RwControlConfigCodecs.t) : RwControlStatus.t :=
    {| RwControlStatus.localAudioParams :=
         if RwControlConfigCodecs.useLocalAudioParams c
         then RwControlConfigCodecs.localAudioParams c
         else RtpWorker.localAudioParams w;
       RwControlStatus.localVideoParams :=
         if RwControlConfigCodecs.useLocalVideoParams c
         then RwControlConfigCodecs.localVideoParams c
         else RtpWorker.localVideoParams w;
       RwControlStatus.localAudioPayloadInfo :=
         if RwControlConfigCodecs.useLocalAudioPayloadInfo c
         then RwControlConfigCodecs.localAudioPayloadInfo c
         else RtpWorker.localAudioPayloadInfo w;
       RwControlStatus.localVideoPayloadInfo :=
         if RwControlConfigCodecs.useLocalVideoPayloadInfo c
         then RwControlConfigCodecs.localVideoPayloadInfo c
         else RtpWorker.localVideoPayloadInfo w;
       RwControlStatus.canTransmitAudio := RtpWorker.canTransmitAudio w;
       RwControlStatus.canTransmitVideo := RtpWorker.canTransmitVideo w;
       RwControlStatus.stopped := RwControlStatus.stopped (statusFromWorker w);
       RwControlStatus.finished := RwControlStatus.finished (statusFromWorker w);
       RwControlStatus.error := RwControlStatus.error (statusFromWorker w);
       RwControlStatus.errorCode :=
         RwControlStatus.errorCode (statusFromWorker w) |} in
  after = match msg with
          | RwControlStartMessage _ c | RwControlUpdateCodecsMessage c =>
              picked c
          | _ => statusFromWorker w
          end.
Proof.
  destruct msg; cbn; try reflexivity.
  - now destruct (useAudio transmit), (useVideo transmit).
  - now destruct (enabled record).
Qed.


(** * More of the two sides together *)

Section ChannelFacts.
Context {M : MediaTypes}.
Import Channel.
Implicit Types (c : Channel.t) (e : Channel.event) (k : completion)
  (tr : list RtpWorker.action) (n : nat).

Lemma run_reachable es c c' :
  reachable c -> run es c = Some c' -> reachable c'.
Proof.
  revert c. induction es as [|e es IH]; intros c Hc; cbn.
  - now intros [= <-].
  - destruct (step e c) as [c1|] eqn:E; [|discriminate].
    apply IH. eapply reachable_step; eauto.
Qed.

Lemma commands_spec (cmds : list RwControlMessage) c :
  let c' := fold_left (fun c msg => command msg c) cmds c in
  local c' = local c
  /\ remote c' = fold_left RwControlRemote.postMessage cmds (remote c).
Proof.
  revert c. induction cmds as [|msg cmds IH]; intros c; [now cbn|].
  cbn [fold_left]. destruct (IH (command msg c)) as [Hl Hr].
  cbn zeta in *. now rewrite Hl, Hr.
Qed.

Lemma inFlight_app n tr tr' :
  inFlight n (tr ++ tr') = inFlight (inFlight n tr) tr'.
Proof.
  revert n. induction tr as [|a tr IH]; intros n; [reflexivity|].
  cbn. destruct (dispatches a); [apply IH|].
  destruct (completes a); apply IH.
Qed.

Lemma peakInFlight_least n tr : (n <= peakInFlight n tr)%nat.
Proof. destruct tr; cbn; lia. Qed.

Lemma peakInFlight_app n tr tr' :
  peakInFlight n (tr ++ tr')
  = Nat.max (peakInFlight n tr) (peakInFlight (inFlight n tr) tr').
Proof.
  revert n. induction tr as [|a tr IH]; intros n.
  - cbn. pose proof (peakInFlight_least n tr'). lia.
  - cbn. destruct (dispatches a); [rewrite IH; lia|].
    destruct (completes a); rewrite IH; lia.
Qed.

(** A command's calls end with the one asynchronous operation it starts, if
    it starts one, and hold no other. *)
Lemma callsOf_inFlight (msg : RwControlMessage) n :
  inFlight n (callsOf msg) = (if blocks msg then S n else n)
  /\ peakInFlight n (callsOf msg) = (if blocks msg then S n else n).
Proof.
  destruct msg; cbn; try (split; lia).
  - destruct (useAudio transmit), (useVideo transmit); cbn; split; lia.
  - destruct (enabled record); cbn; split; lia.
Qed.

Lemma applied_inFlight (q : list RwControlMessage) n :
  inFlight n (flat_map callsOf (applied q))
  = (if existsb blocks q then S n else n)
  /\ peakInFlight n (flat_map callsOf (applied q))
     = (if existsb blocks q then S n else n).
Proof.
  induction q as [|msg q IH]; [cbn; split; lia|].
  cbn [applied flat_map existsb].
  rewrite inFlight_app, peakInFlight_app.
  destruct (callsOf_inFlight msg n) as [-> ->].
  destruct (blocks msg); cbn [orb flat_map inFlight peakInFlight].
  - split; lia.
  - destruct IH as [-> ->]. destruct (existsb blocks q); split; lia.
Qed.

(** A completion callback leaves the front side alone or posts one Status. *)
Lemma handler_local k (r : RwControlRemote.t) (l : RwControlLocal.t) :
  snd (handler k r l) = l
  \/ exists s,
       snd (handler k r l)
       = RwControlLocal.postMessage l (RwControlStatusMessage s).
Proof.
  destruct k; cbn; try (right; eexists; reflexivity).
  unfold RwControlRemote.worker_updated.
  destruct (RwControlRemote.pending_status r); cbn;
    [right; eexists; reflexivity | now left].
Qed.

Lemma call_frame (a : RtpWorker.action) (r : RwControlRemote.t) :
  RwControlRemote.in_ (RwControlRemote.call a r) = RwControlRemote.in_ r
  /\ RwControlRemote.blocking (RwControlRemote.call a r)
     = RwControlRemote.blocking r
  /\ RwControlRemote.timer (RwControlRemote.call a r)
     = RwControlRemote.timer r
  /\ RtpWorker.trace (RwControlRemote.worker (RwControlRemote.call a r))
     = RtpWorker.trace (RwControlRemote.worker r) ++ [a].
Proof. now cbn. Qed.

(** The front inbox is never left non-empty without a wake pending. *)
Lemma step_front_wake e c c' :
  (isEmpty (RwControlLocal.in_ (local c)) = false ->
   RwControlLocal.wake_pending (local c) = true) ->
  step e c = Some c' ->
  isEmpty (RwControlLocal.in_ (local c')) = false ->
  RwControlLocal.wake_pending (local c') = true.
Proof.
  assert (Hpost : forall l msg,
             RwControlLocal.wake_pending (RwControlLocal.postMessage l msg)
             = true).
  { intros l msg. cbn. now destruct (RwControlLocal.wake_pending l). }
  intros H Hstep. destruct e; cbn in Hstep;
    try (injection Hstep as <-); try exact H; try (intros _; apply Hpost).
  - unfold remoteWake. now destruct (RwControlRemote.timer (remote c)).
  - unfold complete, callback. cbn [local remote].
    pose proof (handler_local k (RwControlRemote.call (fired k) (remote c))
                  (local c)) as Hl.
    destruct (handler k _ _) as [r' l']. cbn [fst snd local] in *.
    destruct Hl as [->|(s & ->)]; [exact H | intros _; apply Hpost].
  - destruct (local_processMessages_spec obs (local c)) as (gone & Hpm & _).
    rewrite Hpm in Hstep. cbn in Hstep.
    destruct (snd (deliver obs [] _)); [|discriminate].
    injection Hstep as <-. cbn. discriminate.
  - discriminate.
Qed.

(** The back inbox is never left non-empty, with the gate open, without a
    drain scheduled. *)
Lemma step_back_wake e c c' :
  (isEmpty (RwControlRemote.in_ (remote c)) = false ->
   RwControlRemote.blocking (remote c) = false ->
   RwControlRemote.timer (remote c) = true) ->
  step e c = Some c' ->
  isEmpty (RwControlRemote.in_ (remote c')) = false ->
  RwControlRemote.blocking (remote c') = false ->
  RwControlRemote.timer (remote c') = true.
Proof.
  intros H Hstep. destruct e; cbn in Hstep;
    try (injection Hstep as <-); try exact H.
  - (* a command is posted *)
    cbn. destruct (remote_postMessage_spec (remote c) msg)
      as (_ & Hb & _ & _ & Ht).
    cbn zeta in *. rewrite Hb, Ht. intros _ ->. apply orb_true_r.
  - (* the scheduled drain runs *)
    unfold remoteWake.
    destruct (RwControlRemote.timer (remote c)) eqn:Et;
      [|now rewrite Et].
    cbn [remote]. unfold RwControlRemote.processMessages.
    destruct (processMessages_loop_spec
                (RwControlRemote.in_ (RwControlRemote.set_timer false (remote c)))
                (RwControlRemote.set_timer false (remote c)))
      as (_ & Hi & Hb & _).
    cbn zeta in *. rewrite Hi, Hb. intros Hne Hopen.
    apply orb_false_elim in Hopen as [Hex _].
    rewrite (applied_all _ Hex), skipn_all in Hne. discriminate.
  - (* a completion callback *)
    unfold complete, callback. cbn [local remote].
    pose proof (handler_spec k (RwControlRemote.call (fired k) (remote c))
                  (local c)) as (Hi & _ & Hb & Ht & _).
    destruct (handler k _ _) as [r' l']. cbn [fst snd remote] in *.
    rewrite Hi, Hb, Ht. cbn.
    destruct (RwControlRemote.timer (remote c)),
      (RwControlRemote.blocking (remote c)), (resumes k),
      (isEmpty (RwControlRemote.in_ (remote c)));
      cbn in *; auto; discriminate.
  - (* the front inbox is drained *)
    destruct (fst (RwControlLocal.processMessages obs (local c)));
      [|discriminate].
    injection Hstep as <-. exact H.
  - discriminate.
Qed.

(** At most one operation is in flight, and none while the gate is open. *)
Lemma step_in_flight e c c' :
  gateInvariant (remote c) ->
  (let tr := RtpWorker.trace (RwControlRemote.worker (remote c)) in
   peakInFlight 0 tr <= 1 /\ inFlight 0 tr <= 1
   /\ (RwControlRemote.blocking (remote c) = false -> inFlight 0 tr = 0))%nat ->
  step e c = Some c' ->
  (let tr := RtpWorker.trace (RwControlRemote.worker (remote c')) in
   peakInFlight 0 tr <= 1 /\ inFlight 0 tr <= 1
   /\ (RwControlRemote.blocking (remote c') = false -> inFlight 0 tr = 0))%nat.
Proof.
  intros [Hgate _] H Hstep. cbn zeta in *. destruct e; cbn in Hstep;
    try (injection Hstep as <-); try exact H.
  - (* a command is posted *)
    cbn. destruct (remote_postMessage_spec (remote c) msg)
      as (_ & Hb & _ & Hw & _).
    cbn zeta in *. now rewrite Hb, Hw.
  - (* the scheduled drain runs *)
    unfold remoteWake.
    destruct (RwControlRemote.timer (remote c)) eqn:Et; [|exact H].
    cbn [remote]. unfold RwControlRemote.processMessages.
    destruct (processMessages_loop_spec
                (RwControlRemote.in_ (RwControlRemote.set_timer false (remote c)))
                (RwControlRemote.set_timer false (remote c)))
      as (Htr & _ & Hb & _).
    cbn zeta in *. rewrite Htr, Hb.
    cbn [RwControlRemote.worker RwControlRemote.set_timer
         RwControlRemote.blocking RwControlRemote.in_].
    destruct H as (Hpeak & _ & Hzero).
    specialize (Hzero (Hgate eq_refl)).
    rewrite peakInFlight_app, inFlight_app, Hzero.
    destruct (applied_inFlight (RwControlRemote.in_ (remote c)) 0) as [-> ->].
    rewrite (Hgate eq_refl), orb_false_r.
    destruct (existsb blocks (RwControlRemote.in_ (remote c)));
      repeat split; try lia; discriminate.
  - (* a completion callback *)
    unfold complete, callback. cbn [local remote].
    pose proof (handler_spec k (RwControlRemote.call (fired k) (remote c))
                  (local c)) as (_ & Hw & _).
    destruct (handler k _ _) as [r' l']. cbn [fst snd remote] in *.
    rewrite Hw. cbn [RwControlRemote.call RwControlRemote.worker
                     RwControlRemote.set_worker RtpWorker.record RtpWorker.trace].
    destruct H as (Hpeak & Hone & _).
    rewrite peakInFlight_app, inFlight_app.
    assert (Hk : dispatches (fired k) = false /\ completes (fired k) = true)
      by (now destruct k).
    destruct Hk as [Hd Hc]. cbn. rewrite Hd, Hc.
    repeat split; lia.
  - (* the front inbox is drained *)
    destruct (fst (RwControlLocal.processMessages obs (local c)));
      [|discriminate].
    injection Hstep as <-. exact H.
  - discriminate.
Qed.
(** One drain: what it applies, what it leaves, how it leaves the gate. *)
Lemma drain_tail (r : RwControlRemote.t) :
  RtpWorker.trace (RwControlRemote.worker (RwControlRemote.processMessages r))
  = RtpWorker.trace (RwControlRemote.worker r)
    ++ flat_map callsOf (applied (RwControlRemote.in_ r))
  /\ applied (RwControlRemote.in_ r)
     ++ RwControlRemote.in_ (RwControlRemote.processMessages r)
     = RwControlRemote.in_ r
  /\ RwControlRemote.blocking (RwControlRemote.processMessages r)
     = existsb blocks (RwControlRemote.in_ r) || RwControlRemote.blocking r.
Proof.
  unfold RwControlRemote.processMessages.
  destruct (processMessages_loop_spec
              (RwControlRemote.in_ (RwControlRemote.set_timer false r))
              (RwControlRemote.set_timer false r)) as (Htr & Hi & Hb & _).
  cbn zeta in *. cbn [RwControlRemote.in_ RwControlRemote.set_timer] in *.
  rewrite Htr, Hi, Hb. repeat split. apply applied_rest.
Qed.
(** While the gate is closed and no drain is scheduled, only a completion
    callback can make the back side call the worker. *)
Lemma step_while_blocked e c c' :
  RwControlRemote.blocking (remote c) = true ->
  RwControlRemote.timer (remote c) = false ->
  (forall k, e <> Completes k) ->
  step e c = Some c' ->
  RwControlRemote.blocking (remote c') = true
  /\ RwControlRemote.timer (remote c') = false
  /\ RtpWorker.trace (RwControlRemote.worker (remote c'))
     = RtpWorker.trace (RwControlRemote.worker (remote c))
  /\ exists more,
       RwControlRemote.in_ (remote c')
       = RwControlRemote.in_ (remote c) ++ more.
Proof.
  intros Hb Ht Hne Hstep.
  assert (Hsame : RwControlRemote.blocking (remote c) = true
                  /\ RwControlRemote.timer (remote c) = false
                  /\ RtpWorker.trace (RwControlRemote.worker (remote c))
                     = RtpWorker.trace (RwControlRemote.worker (remote c))
                  /\ exists more,
                       RwControlRemote.in_ (remote c)
                       = RwControlRemote.in_ (remote c) ++ more).
  { repeat split; auto. exists []. now rewrite app_nil_r. }
  destruct e; cbn in Hstep; try (injection Hstep as <-); try exact Hsame.
  - (* a command is posted *)
    cbn. destruct (remote_postMessage_spec (remote c) msg)
      as (Hi & Hb' & _ & Hw & Ht').
    cbn zeta in *. rewrite Hi, Hb', Hw, Ht', Hb, Ht.
    repeat split. now exists [msg].
  - (* nothing is scheduled *)
    unfold remoteWake. now rewrite Ht.
  - now destruct (Hne k).
  - (* the front inbox is drained *)
    destruct (fst (RwControlLocal.processMessages obs (local c)));
      [|discriminate].
    injection Hstep as <-. exact Hsame.
  - discriminate.
Qed.

Lemma run_while_blocked es c c' :
  RwControlRemote.blocking (remote c) = true ->
  RwControlRemote.timer (remote c) = false ->
  Forall (fun e => forall k, e <> Completes k) es ->
  run es c = Some c' ->
  RwControlRemote.blocking (remote c') = true
  /\ RwControlRemote.timer (remote c') = false
  /\ RtpWorker.trace (RwControlRemote.worker (remote c'))
     = RtpWorker.trace (RwControlRemote.worker (remote c))
  /\ exists more,
       RwControlRemote.in_ (remote c')
       = RwControlRemote.in_ (remote c) ++ more.
Proof.
  intros Hb Ht Hes. revert c Hb Ht.
  induction Hes as [|e es He Hes IH]; intros c Hb Ht; cbn.
  - intros [= <-]. repeat split; auto. exists []. now rewrite app_nil_r.
  - destruct (step e c) as [c1|] eqn:E; [|discriminate].
    intros Hrun.
    destruct (@step_while_blocked e c c1 Hb Ht He E)
      as (Hb1 & Ht1 & Htr1 & more1 & Hi1).
    destruct (IH c1 Hb1 Ht1 Hrun) as (Hb2 & Ht2 & Htr2 & more2 & Hi2).
    repeat split; auto; try congruence.
    exists (more1 ++ more2). now rewrite Hi2, Hi1, app_assoc.
Qed.

(** In every state the pair can reach at most one operation is in flight,
    and none while the gate is open. *)
Lemma reachable_in_flight c :
  reachable c ->
  (peakInFlight 0 (RtpWorker.trace (RwControlRemote.worker (remote c))) <= 1)%nat.
Proof.
  intros H.
  enough (peakInFlight 0
            (RtpWorker.trace (RwControlRemote.worker (remote c))) <= 1
          /\ inFlight 0
               (RtpWorker.trace (RwControlRemote.worker (remote c))) <= 1
          /\ (RwControlRemote.blocking (remote c) = false ->
              inFlight 0
                (RtpWorker.trace (RwControlRemote.worker (remote c)))
              = 0))%nat as [Hpeak _] by exact Hpeak.
  induction H as [w Hw|e c c' Hc IH Hstep].
  - cbn. rewrite Hw. cbn. repeat split; lia.
  - apply (step_in_flight e c (reachable_gate Hc) IH Hstep).
Qed.
End ChannelFacts.



(** Property X11.  No wake-up of the back side is lost: in every state the
    pair can reach, whenever the back inbox is not empty and the gate is
    open ([blocking] clear), a call of [RwControlRemote::processMessages]
    is scheduled ([timer] set). *)
Theorem back_inbox_never_waits_unscheduled {M : MediaTypes} (c : Channel.t) :
  Channel.reachable c ->
  isEmpty (RwControlRemote.in_ (Channel.remote c)) = false ->
  RwControlRemote.blocking (Channel.remote c) = false ->
  RwControlRemote.timer (Channel.remote c) = true.
Proof.
  induction 1 as [w _|e c c' _ IH Hstep]; [discriminate|].
  now apply (step_back_wake e c).
Qed.



(** Property X14.  Commands issued through [RwControlLocal] while the back
    side is at rest (inbox empty, gate open) are all taken by the next
    drain: it applies them in the order issued up to and including the first
    one that closes the gate, keeps the others queued, and the front side is
    not touched. *)
Theorem commands_issued_at_rest_are_applied_in_order {M : MediaTypes}
    (c : Channel.t) (cmds : list RwControlMessage) :
  backIdle (Channel.remote c) ->
  let c' :=
    Channel.remoteWake
      (fold_left (fun c msg => Channel.command msg c) cmds c) in
  RtpWorker.trace (RwControlRemote.worker (Channel.remote c'))
  = RtpWorker.trace (RwControlRemote.worker (Channel.remote c))
    ++ flat_map callsOf (applied cmds)
  /\ applied cmds ++ RwControlRemote.in_ (Channel.remote c') = cmds
  /\ RwControlRemote.blocking (Channel.remote c') = existsb blocks cmds
  /\ Channel.local c' = Channel.local c.
Proof.
  intros [Hin Hopen] c'. subst c'.
  destruct (commands_spec cmds c) as [Hl Hr].
  destruct (postMessages_spec cmds (Channel.remote c))
    as (Hi & Hb & _ & Hw & Ht).
  cbn zeta in *. rewrite <- Hr in *. rewrite Hin in Hi. cbn [app] in Hi.
  rewrite Hopen in Hb, Ht.
  set (c1 := fold_left (fun c msg => Channel.command msg c) cmds c) in *.
  unfold Channel.remoteWake.
  destruct (RwControlRemote.timer (Channel.remote c1)) eqn:Et.
  - cbn [Channel.remote Channel.local].
    destruct (drain_tail (Channel.remote c1)) as (Htr & Hrest & Hbl).
    rewrite Htr, Hbl, Hi, Hw, Hb, orb_false_r. rewrite Hi in Hrest. auto.
  - assert (cmds = []) as ->.
    { destruct cmds; [reflexivity|].
      rewrite orb_comm in Ht. cbn in Ht. discriminate. }
    subst c1. cbn. rewrite app_nil_r, Hin, Hopen. auto.
Qed.

(** Property X15.  Commands issued while the back side waits for the worker
    (gate closed, no drain scheduled) are queued behind those already
    waiting; nothing is applied and no drain is scheduled until the worker
    reports.  When [started] or [updated] arrives the gate opens, a drain is
    scheduled if anything waits, and that drain applies the waiting
    commands in arrival order up to the first one that closes the gate
    again. *)
Theorem commands_issued_while_blocked_wait_their_turn {M : MediaTypes}
    (c : Channel.t) (cmds : list RwControlMessage) (k : Channel.completion) :
  backBlocked (Channel.remote c) ->
  resumes k = true ->
  let q := RwControlRemote.in_ (Channel.remote c) ++ cmds in
  let c1 := fold_left (fun c msg => Channel.command msg c) cmds c in
  let c2 := Channel.complete k c1 in
  let c3 := Channel.remoteWake c2 in
  (RwControlRemote.in_ (Channel.remote c1) = q
   /\ RwControlRemote.worker (Channel.remote c1)
      = RwControlRemote.worker (Channel.remote c)
   /\ RwControlRemote.timer (Channel.remote c1) = false
   /\ Channel.remoteWake c1 = c1)
  /\ (RwControlRemote.blocking (Channel.remote c2) = false
      /\ RwControlRemote.timer (Channel.remote c2) = negb (isEmpty q))
  /\ (RtpWorker.trace (RwControlRemote.worker (Channel.remote c3))
      = RtpWorker.trace (RwControlRemote.worker (Channel.remote c))
        ++ Channel.fired k :: flat_map callsOf (applied q)
      /\ applied q ++ RwControlRemote.in_ (Channel.remote c3) = q
      /\ RwControlRemote.blocking (Channel.remote c3) = existsb blocks q).
Proof.
  intros [Hblocked Htimer] Hk q c1 c2 c3.
  destruct (commands_spec cmds c) as [Hl Hr].
  destruct (postMessages_spec cmds (Channel.remote c))
    as (Hi & Hb & _ & Hw & Ht).
  cbn zeta in *. rewrite <- Hr in *. fold c1 in Hl, Hi, Hb, Hw, Ht.
  rewrite Hblocked in Hb. rewrite Hblocked, Htimer in Ht. cbn in Ht.
  fold q in Hi.
  split; [|split].
  - repeat split; auto. unfold Channel.remoteWake. now rewrite Ht.
  - subst c2. unfold Channel.complete, Channel.callback.
    cbn [Channel.local Channel.remote].
    pose proof (handler_spec k
                  (RwControlRemote.call (Channel.fired k) (Channel.remote c1))
                  (Channel.local c1)) as (Hi2 & _ & Hb2 & Ht2 & _).
    destruct (Channel.handler k _ _) as [r2 l2].
    cbn [fst snd Channel.remote] in *.
    rewrite Hb2, Ht2. cbn. rewrite Hb, Ht, Hi, Hk. cbn. auto.
  - assert (H2 : RwControlRemote.in_ (Channel.remote c2) = q
                 /\ RtpWorker.trace (RwControlRemote.worker (Channel.remote c2))
                    = RtpWorker.trace (RwControlRemote.worker (Channel.remote c))
                      ++ [Channel.fired k]
                 /\ RwControlRemote.blocking (Channel.remote c2) = false
                 /\ RwControlRemote.timer (Channel.remote c2)
                    = negb (isEmpty q)).
    { subst c2. unfold Channel.complete, Channel.callback.
      cbn [Channel.local Channel.remote].
      pose proof (handler_spec k
                    (RwControlRemote.call (Channel.fired k) (Channel.remote c1))
                    (Channel.local c1)) as (Hi2 & Hw2 & Hb2 & Ht2 & _).
      destruct (Channel.handler k _ _) as [r2 l2].
      cbn [fst snd Channel.remote] in *.
      rewrite Hi2, Hw2, Hb2, Ht2. cbn. rewrite Hb, Ht, Hi, Hw, Hk. cbn. auto. }
    destruct H2 as (Hi2 & Htr2 & Hb2 & Ht2).
    subst c3. unfold Channel.remoteWake. rewrite Ht2.
    destruct (isEmpty q) eqn:Eq; cbn [negb].
    + assert (q = []) as Hq by (destruct q; [reflexivity | discriminate]).
      rewrite Htr2, Hi2, Hb2, Hq. cbn. auto.
    + cbn [Channel.remote].
      destruct (drain_tail (Channel.remote c2)) as (Htr & Hrest & Hbl).
      rewrite Htr, Hbl, Htr2, Hb2, Hi2, orb_false_r, <- app_assoc.
      rewrite Hi2 in Hrest. auto.
Qed.

(** Property X16.  The eviction of old frames at push time cannot be seen
    by the observers: starting from an inbox within the retention bound,
    the drain that follows any sequence of pushes makes the callbacks it
    would make had every pushed message been kept, and survives or not
    alike. *)
Theorem frame_eviction_is_invisible_to_observers {M : MediaTypes}
    (obs : RwControlLocal.observer) (l : RwControlLocal.t)
    (msgs : list RwControlMessage) :
  withinBound (RwControlLocal.in_ l) ->
  let bounded := fold_left RwControlLocal.postMessage msgs l in
  let unbounded :=
    {| RwControlLocal.in_ := RwControlLocal.in_ l ++ msgs;
       RwControlLocal.wake_pending := true |} in
  RwControlLocal.emitted (snd (RwControlLocal.processMessages obs bounded))
  = RwControlLocal.emitted (snd (RwControlLocal.processMessages obs unbounded))
  /\ fst (RwControlLocal.processMessages obs bounded)
     = fst (RwControlLocal.processMessages obs unbounded).
Proof.
  intros Hb bounded unbounded.
  destruct (local_processMessages_spec obs bounded) as (g1 & -> & _).
  destruct (local_processMessages_spec obs unbounded) as (g2 & -> & _).
  cbn [fst snd RwControlLocal.emitted].
  assert (E : expected (RwControlLocal.in_ bounded)
              = expected (RwControlLocal.in_ unbounded)).
  { subst bounded unbounded. cbn [RwControlLocal.in_].
    unfold expected, previewSignal, outputSignal, intensitySignal.
    rewrite !(postMessages_newest l msgs _ Hb).
    assert (Hai : lastOccurrence isAudioIntensity
                    (RwControlLocal.in_
                       (fold_left RwControlLocal.postMessage msgs l))
                  = lastOccurrence isAudioIntensity
                      (RwControlLocal.in_ l ++ msgs)).
    { rewrite <- lastOccurrence_of_filter, postMessages_keep_kind.
      - apply lastOccurrence_of_filter.
      - now intros []. }
    rewrite Hai. do 3 f_equal.
    rewrite <- (statusSignals_others isFrame
                  (RwControlLocal.in_
                     (fold_left RwControlLocal.postMessage msgs l)))
      by reflexivity.
    rewrite <- (statusSignals_others isFrame (RwControlLocal.in_ l ++ msgs))
      by reflexivity.
    unfold others. now rewrite postMessages_keep_non_frames. }
  now rewrite E.
Qed.


(** * The further properties run on concrete inputs *)

Section MoreRuns.
Local Existing Instance sampleTypes.

Lemma new_withinBound :
  withinBound (RwControlLocal.in_ (RwControlLocal.new (M:=sampleTypes))).
Proof. intros ty. cbn. unfold QUEUE_FRAME_MAX. lia. Defined.

Lemma sampleFramed_reachable : Channel.reachable sampleFramed.
Proof.
  apply (@run_reachable sampleTypes [@Channel.PreviewFrame sampleTypes 1%nat]
           (Channel.new sampleWorker));
    [apply Channel.reachable_new | ]; reflexivity.
Defined.

Lemma sampleQueued_reachable : Channel.reachable sampleQueued.
Proof.
  apply (@run_reachable sampleTypes [Channel.Command RwControlStopMessage]
           (Channel.new sampleWorker));
    [apply Channel.reachable_new | ]; reflexivity.
Defined.

Lemma sampleSession_reachable : Channel.reachable sampleSession.
Proof.
  apply (@run_reachable sampleTypes sampleSessionEvents
           (Channel.new sampleWorker));
    [apply Channel.reachable_new | ]; reflexivity.
Defined.

(** The pushes of [samplePushes] evict preview frames 1 to 5 and nothing
    else. *)
Example samplePushes_run :
  RwControlLocal.in_
    (fold_left RwControlLocal.postMessage samplePushes RwControlLocal.new)
  = sampleOutput 100 :: map samplePreview (seq 6 3)
    ++ RwControlStatusMessage (statusFromWorker sampleWorker)
       :: sampleOutput 101 :: map samplePreview (seq 9 7).
Proof. reflexivity. Qed.

Lemma newest_frames_witness :
  withinBound (RwControlLocal.in_ (RwControlLocal.new (M:=sampleTypes)))
  /\ filter (isFrameOfType Preview)
       (RwControlLocal.in_
          (fold_left RwControlLocal.postMessage samplePushes
             RwControlLocal.new))
     = lastN (Z.to_nat QUEUE_FRAME_MAX)
         (filter (isFrameOfType Preview)
            (RwControlLocal.in_ RwControlLocal.new ++ samplePushes)).
Proof.
  split; [exact new_withinBound|].
  exact (@newest_frames_of_a_kind_are_kept sampleTypes RwControlLocal.new
           samplePushes Preview new_withinBound).
Defined.


Lemma back_wake_witness :
  Channel.reachable sampleQueued
  /\ isEmpty (RwControlRemote.in_ (Channel.remote sampleQueued)) = false
  /\ RwControlRemote.blocking (Channel.remote sampleQueued) = false
  /\ RwControlRemote.timer (Channel.remote sampleQueued) = true.
Proof.
  split; [exact sampleQueued_reachable|]. do 2 (split; [reflexivity|]).
  exact (@back_inbox_never_waits_unscheduled sampleTypes sampleQueued
           sampleQueued_reachable eq_refl eq_refl).
Defined.



Lemma commands_at_rest_witness :
  backIdle (Channel.remote (Channel.new sampleWorker))
  /\ RtpWorker.trace
       (RwControlRemote.worker
          (Channel.remote
             (Channel.remoteWake
                (fold_left (fun c msg => Channel.command msg c)
                   sampleCommands (Channel.new sampleWorker)))))
     = [RtpWorker.transmitAudio 0; RtpWorker.pauseVideo;
        RtpWorker.setOutputVolume 100; RtpWorker.setInputVolume 100;
        RtpWorker.update]
  /\ RwControlRemote.in_
       (Channel.remote
          (Channel.remoteWake
             (fold_left (fun c msg => Channel.command msg c)
                sampleCommands (Channel.new sampleWorker))))
     = [RwControlRecordMessage sampleRecord].
Proof.
  assert (Hidle : backIdle (Channel.remote (Channel.new sampleWorker)))
    by (split; reflexivity).
  split; [exact Hidle|].
  destruct (@commands_issued_at_rest_are_applied_in_order sampleTypes
              (Channel.new sampleWorker) sampleCommands Hidle)
    as (Htr & Hrest & _).
  split; [exact Htr|].
  exact (app_inv_head _ _ _ Hrest).
Defined.

Lemma commands_while_blocked_witness :
  backBlocked (Channel.remote sampleBlocked)
  /\ resumes Channel.started = true
  /\ RwControlRemote.timer
       (Channel.remote
          (fold_left (fun c msg => Channel.command msg c)
             sampleCommands sampleBlocked))
     = false
  /\ RtpWorker.trace
       (RwControlRemote.worker
          (Channel.remote
             (Channel.remoteWake
                (Channel.complete Channel.started
                   (fold_left (fun c msg => Channel.command msg c)
                      sampleCommands sampleBlocked)))))
     = [RtpWorker.cb_started; RtpWorker.stop].
Proof.
  assert (Hblocked : backBlocked (Channel.remote sampleBlocked))
    by (split; reflexivity).
  split; [exact Hblocked|]. split; [reflexivity|].
  destruct (@commands_issued_while_blocked_wait_their_turn sampleTypes
              sampleBlocked sampleCommands Channel.started Hblocked eq_refl)
    as ((_ & _ & Ht & _) & _ & (Htr & _)).
  split; [exact Ht | exact Htr].
Defined.

Lemma eviction_invisible_witness :
  withinBound (RwControlLocal.in_ (RwControlLocal.new (M:=sampleTypes)))
  /\ RwControlLocal.emitted
       (snd (RwControlLocal.processMessages (fun _ => true)
               (fold_left RwControlLocal.postMessage samplePushes
                  RwControlLocal.new)))
     = RwControlLocal.emitted
         (snd (RwControlLocal.processMessages (fun _ => true)
                 {| RwControlLocal.in_ :=
                      RwControlLocal.in_ RwControlLocal.new ++ samplePushes;
                    RwControlLocal.wake_pending := true |})).
Proof.
  split; [exact new_withinBound|].
  exact (proj1 (@frame_eviction_is_invisible_to_observers sampleTypes
                  (fun _ => true) RwControlLocal.new samplePushes
                  new_withinBound)).
Defined.
End MoreRuns.
